(** * NotesFlow: the local record store and the cache lifecycle manager

    A shallow embedding of the two engines of the application:
    - [NotesDB]: the class [NotesDB] of [app.jsx], over a model of the
      IndexedDB object store it opens;
    - [ServiceWorker]: the event handlers of [service-worker.js], over a
      model of the Cache Storage and of the network.

    Text is a [string] of code units below 256 throughout; [Utf16] has the
    search of [NotesDB] over 16-bit code units, for text of other scripts.

    Promises are modelled by their final [outcome]; every operation runs in
    a transaction of its own, so a failed operation leaves the store as it
    was. *)

From Stdlib Require Import ZArith String Ascii List Lia Bool.
From stdpp Require Import gmap strings list sorting pretty.

Local Open Scope Z_scope.

(** ** Strings as the code uses them *)

Module JsString.

(** A [string] is a sequence of code units below 256: the text of Basic
    Latin and of the Latin-1 Supplement (U+0000 to U+00FF), one code unit
    for each character.  Text with other characters is not a [string]; the
    module [Utf16] below has the search over 16-bit code units. *)

(** The capital letters among these code units: A to Z (65 to 90), and
    À to Þ (192 to 222) without the multiplication sign (215). *)
Definition is_capital (c : ascii) : bool :=
  let n := nat_of_ascii c in
  ((65 <=? n)%nat && (n <=? 90)%nat
   || (192 <=? n)%nat && (n <=? 214)%nat
   || (216 <=? n)%nat && (n <=? 222)%nat)%bool.

(** The lower case mapping of one code unit: the small form of a capital
    letter lies 32 places further on; every other code unit is kept (so
    are ß, µ and ÿ, small letters whose capital forms are not below 256). *)
Definition lower_unit (c : ascii) : ascii :=
  if is_capital c then ascii_of_nat (nat_of_ascii c + 32) else c.

(** [String.prototype.toLowerCase].  On code units below 256 the mapping
    is made unit by unit: none of them has a mapping that depends on its
    neighbours or that changes the length. *)
Fixpoint toLowerCase (s : string) : string :=
  match s with
  | EmptyString => EmptyString
  | String c s' => String (lower_unit c) (toLowerCase s')
  end.

(** [t] is an initial segment of [s]. *)
Fixpoint startsWith (s t : string) : bool :=
  match t, s with
  | EmptyString, _ => true
  | String _ _, EmptyString => false
  | String b t', String a s' => if Ascii.eqb a b then startsWith s' t' else false
  end.

(** [String.prototype.includes]: [t] occurs in [s] at some position. *)
Fixpoint includes (s t : string) : bool :=
  if startsWith s t then true
  else match s with
       | EmptyString => false
       | String _ s' => includes s' t
       end.

End JsString.

(** ** The record store of [app.jsx] *)

Module NotesDB.
Import JsString.

(** Values of the fields of a note. *)
Inductive value :=
| VNum (n : Z)
| VStr (s : string)
| VBool (b : bool).

#[global] Instance value_eq_dec : EqDecision value.
Proof. solve_decision. Defined.

(** A note is a JavaScript object: a finite map from property names to
    values. *)
Abbreviation note := (gmap string value).

(** Keys of the object store.  Numbers sort before strings. *)
Inductive key :=
| KNum (n : Z)
| KStr (s : string).

#[global] Instance key_eq_dec : EqDecision key.
Proof. solve_decision. Defined.

Definition key_to_sum (k : key) : Z + string :=
  match k with KNum n => inl n | KStr s => inr s end.

Definition key_of_sum (x : Z + string) : key :=
  match x with inl n => KNum n | inr s => KStr s end.

#[global] Instance key_countable : Countable key.
Proof.
  apply (inj_countable' key_to_sum key_of_sum).
  intros []; reflexivity.
Defined.

Definition key_of_value (v : value) : option key :=
  match v with
  | VNum n => Some (KNum n)
  | VStr s => Some (KStr s)
  | VBool _ => None
  end.

Definition value_of_key (k : key) : value :=
  match k with KNum n => VNum n | KStr s => VStr s end.

Definition key_leb (a b : key) : bool :=
  match a, b with
  | KNum x, KNum y => x <=? y
  | KNum _, KStr _ => true
  | KStr _, KNum _ => false
  | KStr s, KStr t => String.leb s t
  end.

Inductive error :=
| ConstraintError
| DataError
| TypeError
| NoteNonTrouvee.         (* new Error('Note non trouvée') *)

(** The final state of a promise. [Unsettled]: neither [resolve] nor
    [reject] is ever called. *)
Inductive outcome (A : Type) :=
| Resolved (a : A)
| Rejected (e : error)
| Unsettled.
Arguments Resolved {A} a.
Arguments Rejected {A} e.
Arguments Unsettled {A}.

(** The object store ['notes'] as [init] creates it:
    [createObjectStore('notes', { keyPath: 'id', autoIncrement: true })].
    [keyGen] is the current number of its key generator. *)
Record objectStore := ObjectStore {
  records : gmap key note;
  keyGen : Z
}.

Definition MAX_GENERATED_KEY : Z := 2 ^ 53.

(** [onupgradeneeded]: the store is created when the database does not
    contain it, and left alone otherwise. *)
Definition init (db : option objectStore) : objectStore :=
  match db with
  | Some os => os
  | None => {| records := ∅; keyGen := 1 |}
  end.

(** Evaluation of the key path ['id'] on a value to store. *)
Inductive extracted :=
| NoKey
| InvalidKey
| InlineKey (k : key).

Definition extract_key (n : note) : extracted :=
  match n !! "id" with
  | None => NoKey
  | Some v => match key_of_value v with
              | Some k => InlineKey k
              | None => InvalidKey
              end
  end.

(** An explicit numeric key moves the key generator past it. *)
Definition update_keyGen (k : key) (gen : Z) : Z :=
  match k with
  | KNum v => let v' := Z.min v MAX_GENERATED_KEY in
              if gen <=? v' then v' + 1 else gen
  | KStr _ => gen
  end.

(** Storing a record, for [add] ([no_overwrite = true]) and [put]. On an
    error the transaction aborts: no new store is returned. *)
Definition store_record (no_overwrite : bool) (n : note) (os : objectStore)
  : error + (key * objectStore) :=
  match extract_key n with
  | InvalidKey => inl DataError
  | NoKey =>
      if MAX_GENERATED_KEY <? keyGen os then inl ConstraintError
      else
        let k := KNum (keyGen os) in
        if (no_overwrite && bool_decide (is_Some (records os !! k)))%bool
        then inl ConstraintError
        else inr (k, {| records := <[k := <["id" := VNum (keyGen os)]> n]> (records os);
                        keyGen := keyGen os + 1 |})
  | InlineKey k =>
      if (no_overwrite && bool_decide (is_Some (records os !! k)))%bool
      then inl ConstraintError
      else inr (k, {| records := <[k := n]> (records os);
                      keyGen := update_keyGen k (keyGen os) |})
  end.

Definition add := store_record true.
Definition put := store_record false.

(** [objectStore.getAll()]: every record, by ascending key. *)
Definition getAll (os : objectStore) : list note :=
  (merge_sort (λ p q : key * note, key_leb p.1 q.1) (map_to_list (records os))).*2.

(** [addNote(note)]; [t1] and [t2] are the two readings of [Date.now()]. *)
Definition addNote (n : note) (t1 t2 : Z) (os : objectStore)
  : outcome key * objectStore :=
  let noteData := <["updatedAt" := VNum t2]> (<["createdAt" := VNum t1]> n) in
  match add noteData os with
  | inr (k, os') => (Resolved k, os')
  | inl e => (Rejected e, os)
  end.

Definition getAllNotes (os : objectStore) : outcome (list note) :=
  Resolved (getAll os).

(** [updateNote(id, updates)]; [t] is the reading of [Date.now()].  A
    [DataError] of [put] is thrown inside the success callback of the
    read, where nobody settles the promise. *)
Definition updateNote (id : key) (updates : note) (t : Z) (os : objectStore)
  : outcome note * objectStore :=
  match records os !! id with
  | Some n =>
      let updatedNote := <["updatedAt" := VNum t]> (updates ∪ n) in
      match put updatedNote os with
      | inr (_, os') => (Resolved updatedNote, os')
      | inl DataError => (Unsettled, os)
      | inl e => (Rejected e, os)
      end
  | None => (Rejected NoteNonTrouvee, os)
  end.

Definition deleteNote (id : key) (os : objectStore) : outcome unit * objectStore :=
  (Resolved tt, {| records := delete id (records os); keyGen := keyGen os |}).

(** The callback of [allNotes.filter] in [searchNotes]; [term] is already
    in lower case.  Reading [toLowerCase] of a field that is not a string
    throws. *)
Definition note_matches (term : string) (n : note) : error + bool :=
  match n !! "title" with
  | Some (VStr t) =>
      if includes (toLowerCase t) term then inr true
      else match n !! "content" with
           | Some (VStr c) => inr (includes (toLowerCase c) term)
           | _ => inl TypeError
           end
  | _ => inl TypeError
  end.

Fixpoint filter_notes (term : string) (l : list note) : error + list note :=
  match l with
  | [] => inr []
  | n :: l' =>
      match note_matches term n with
      | inl e => inl e
      | inr b =>
          match filter_notes term l' with
          | inl e => inl e
          | inr r => inr (if b then n :: r else r)
          end
      end
  end.

Definition searchNotes (searchTerm : string) (os : objectStore)
  : outcome (list note) :=
  let allNotes := getAll os in
  let term := toLowerCase searchTerm in
  match filter_notes term allNotes with
  | inr r => Resolved r
  | inl e => Rejected e
  end.

(** *** Vocabulary of the specification *)

(** The partial record that [Add] accepts. *)
Record newNote := {
  title : string;
  content : string;
  color : string
}.

Definition to_note (n : newNote) : note :=
  <["title" := VStr (title n)]>
    (<["content" := VStr (content n)]>
       (<["color" := VStr (color n)]> ∅)).

(** Sequences of [Add] and [Delete], with the clock readings of each
    [Add]; [run] collects the ids that the [Add]s return. *)
Inductive op :=
| Add (n : newNote) (t1 t2 : Z)
| Delete (id : key).

Fixpoint run (ops : list op) (os : objectStore) : list key * objectStore :=
  match ops with
  | [] => ([], os)
  | Add n t1 t2 :: ops' =>
      match addNote (to_note n) t1 t2 os with
      | (Resolved k, os') => let (ks, os'') := run ops' os' in (k :: ks, os'')
      | (_, os') => run ops' os'
      end
  | Delete id :: ops' => run ops' (deleteNote id os).2
  end.

(** With in-line keys a record is stored under the key that its [id]
    holds. *)
Definition store_wf (os : objectStore) : Prop :=
  ∀ k n, records os !! k = Some n → n !! "id" = Some (value_of_key k).

(** Every key in use is a number below the key generator. *)
Definition keys_generated (os : objectStore) : Prop :=
  ∀ k, is_Some (records os !! k) → ∃ i, k = KNum i ∧ i < keyGen os.

(** [l] is the small form of the capital letter [u].  The capital letters
    below 256 are A to Z, À to Ö and Ø to Þ; each has its small form 32
    places further on. *)
Definition small_of (u l : ascii) : Prop :=
  let n := nat_of_ascii u in
  ((65 ≤ n ∧ n ≤ 90) ∨ (192 ≤ n ∧ n ≤ 214) ∨ (216 ≤ n ∧ n ≤ 222))%nat ∧
  nat_of_ascii l = (n + 32)%nat.

(** The same character, or the two forms of one letter. *)
Definition same_letter (a b : ascii) : Prop :=
  a = b ∨ small_of a b ∨ small_of b a.

(** Two strings that differ by the case of their letters only. *)
Inductive ci_eq : string → string → Prop :=
| ci_eq_nil : ci_eq EmptyString EmptyString
| ci_eq_cons a b s t :
    same_letter a b → ci_eq s t → ci_eq (String a s) (String b t).

(** [t] occurs in [s], case ignored. *)
Definition ci_substring (t s : string) : Prop :=
  ∃ pre mid post, s = (pre ++ mid ++ post)%string ∧ ci_eq mid t.

Definition has_text (n : note) : Prop :=
  ∃ t c, n !! "title" = Some (VStr t) ∧ n !! "content" = Some (VStr c).

Definition search_hit (term : string) (n : note) : Prop :=
  ∃ t c, n !! "title" = Some (VStr t) ∧ n !! "content" = Some (VStr c) ∧
         (ci_substring term t ∨ ci_substring term c).

End NotesDB.

(** ** The cache lifecycle manager of [service-worker.js] *)

Module ServiceWorker.
Import JsString.

Definition CACHE_NAME : string := "notesflow-v1".
Definition DYNAMIC_CACHE : string := "notesflow-dynamic-v1".

Definition STATIC_ASSETS : list string :=
  [ "/";
    "/index.html";
    "/app.jsx";
    "/manifest.json";
    "https://unpkg.com/react@18/umd/react.production.min.js";
    "https://unpkg.com/react-dom@18/umd/react-dom.production.min.js";
    "https://unpkg.com/@babel/standalone/babel.min.js" ].

(** A parsed URL; its [href] is the origin followed by path, query and
    fragment. *)
Record URL := Url {
  origin : string;
  path : string
}.

Definition href (u : URL) : string := (origin u ++ path u)%string.

Record Request := {
  method : string;
  url : URL;
  destination : string
}.

(** What a response carries; it is also what a cache keeps of it.  [vary]
    holds the field values of its [Vary] header: the names of request
    headers, or [*]; it is empty when the response has no such header. *)
Record Response := {
  status : Z;
  body : string;
  vary : list string
}.

#[global] Instance Response_eq_dec : EqDecision Response.
Proof. solve_decision. Defined.

(** A response object of the worker: its body is a stream that is read
    once. *)
Record ResponseObj := {
  content : Response;
  bodyUsed : bool
}.

(** One cache: from the URL of a GET request to the stored response. *)
Abbreviation cache := (gmap string Response).

Inductive event :=
| EvFetch (m h : string)                 (* a request sent to the network *)
| EvPut (name h : string) (l : nat)      (* cache.put of the object at l *)
| EvConsoleError
| EvReply.                               (* postMessage({ success: true }) *)

#[global] Instance event_eq_dec : EqDecision event.
Proof. solve_decision. Defined.

Record state := {
  caches : list (string * cache);        (* CacheStorage, by creation *)
  heap : list ResponseObj;               (* response objects by address *)
  log : list event;
  skipWaitingCalled : bool;
  clientsClaimed : bool
}.

Inductive exn :=
| NetworkError                           (* fetch rejected *)
| TypeError.

Inductive result (A : Type) :=
| Ok (a : A)
| Throw (e : exn).
Arguments Ok {A} a.
Arguments Throw {A} e.

(** Computations of the worker: a state and a value or an exception. *)
Definition M (A : Type) : Type := state → result A * state.

#[global] Instance M_ret : MRet M := λ A a s, (Ok a, s).
#[global] Instance M_bind : MBind M := λ A B f m s,
  match m s with
  | (Ok a, s') => f a s'
  | (Throw e, s') => (Throw e, s')
  end.

Definition throw {A} (e : exn) : M A := λ s, (Throw e, s).

(** [p.catch(h)] *)
Definition catch {A} (m : M A) (h : exn → M A) : M A := λ s,
  match m s with
  | (Ok a, s') => (Ok a, s')
  | (Throw e, s') => h e s'
  end.

(** A promise nobody waits for: its rejection is lost. *)
Definition fire_and_forget (m : M unit) : M unit := λ s,
  match m s with
  | (_, s') => (Ok tt, s')
  end.

Definition get_caches : M (list (string * cache)) := λ s, (Ok (caches s), s).

Definition set_caches (cs : list (string * cache)) : M unit := λ s,
  (Ok tt, {| caches := cs; heap := heap s; log := log s;
             skipWaitingCalled := skipWaitingCalled s;
             clientsClaimed := clientsClaimed s |}).

Definition emit (e : event) : M unit := λ s,
  (Ok tt, {| caches := caches s; heap := heap s; log := log s ++ [e];
             skipWaitingCalled := skipWaitingCalled s;
             clientsClaimed := clientsClaimed s |}).

(** A new response object; its address is the next free one. *)
Definition alloc (r : Response) : M nat := λ s,
  (Ok (length (heap s)),
   {| caches := caches s;
      heap := heap s ++ [{| content := r; bodyUsed := false |}];
      log := log s;
      skipWaitingCalled := skipWaitingCalled s;
      clientsClaimed := clientsClaimed s |}).

Definition deref (l : nat) : M ResponseObj := λ s,
  match heap s !! l with
  | Some o => (Ok o, s)
  | None => (Throw TypeError, s)
  end.

(** Reading the body of the object at [l] to its end. *)
Definition consume (l : nat) : M unit := λ s,
  match heap s !! l with
  | Some o =>
      (Ok tt, {| caches := caches s;
                 heap := <[l := {| content := content o; bodyUsed := true |}]> (heap s);
                 log := log s;
                 skipWaitingCalled := skipWaitingCalled s;
                 clientsClaimed := clientsClaimed s |})
  | None => (Throw TypeError, s)
  end.

Definition skipWaiting : M unit := λ s,
  (Ok tt, {| caches := caches s; heap := heap s; log := log s;
             skipWaitingCalled := true;
             clientsClaimed := clientsClaimed s |}).

Definition clients_claim : M unit := λ s,
  (Ok tt, {| caches := caches s; heap := heap s; log := log s;
             skipWaitingCalled := skipWaitingCalled s;
             clientsClaimed := true |}).

(** *** The Cache Storage *)

(** The first cache, by creation, that holds [h]. *)
Fixpoint storage_match (cs : list (string * cache)) (h : string) : option Response :=
  match cs with
  | [] => None
  | (_, c) :: cs' =>
      match c !! h with
      | Some r => Some r
      | None => storage_match cs' h
      end
  end.

Definition has_cache (name : string) (cs : list (string * cache)) : bool :=
  existsb (λ p, String.eqb p.1 name) cs.

(** [caches.open(name)] creates the cache when there is none. *)
Definition storage_open (name : string) (cs : list (string * cache))
  : list (string * cache) :=
  if has_cache name cs then cs else cs ++ [(name, ∅)].

Definition storage_delete (name : string) (cs : list (string * cache))
  : list (string * cache) :=
  List.filter (λ p, negb (String.eqb p.1 name)) cs.

Fixpoint storage_insert (name h : string) (r : Response) (cs : list (string * cache))
  : list (string * cache) :=
  match cs with
  | [] => []
  | (n, c) :: cs' =>
      if String.eqb n name then (n, <[h := r]> c) :: cs'
      else (n, c) :: storage_insert name h r cs'
  end.

(** [caches.match]: only GET requests match; a hit is handed out as a new
    response object. *)
Definition cache_lookup (m h : string) (cs : list (string * cache)) : option Response :=
  if String.eqb m "GET" then storage_match cs h else None.

Definition caches_match (m h : string) : M (option nat) :=
  cs ← get_caches;
  match cache_lookup m h cs with
  | Some r => l ← alloc r; mret (Some l)
  | None => mret None
  end.

Definition caches_open (name : string) : M string :=
  cs ← get_caches;
  set_caches (storage_open name cs);;
  mret name.

(** The [Vary] header of the response lists [*]. *)
Definition varies_on_all (r : Response) : bool := bool_decide ("*" ∈ vary r).

(** The scheme of the URL is [http] or [https]. *)
Definition http_scheme (h : string) : bool :=
  startsWith h "http:" || startsWith h "https:".

(** [cache.put(request, response)] reads the body of [response] and keeps
    it under the URL of the request.  It refuses a request that is not a
    GET or whose URL is not an http one, a partial response, a response
    that varies on [*] and a body that has been read. *)
Definition cache_put (name m h : string) (l : nat) : M unit :=
  o ← deref l;
  if negb (String.eqb m "GET") then throw TypeError
  else if negb (http_scheme h) then throw TypeError
  else if status (content o) =? 206 then throw TypeError
  else if varies_on_all (content o) then throw TypeError
  else if bodyUsed o then throw TypeError
  else
    consume l;;
    emit (EvPut name h l);;
    cs ← get_caches;
    set_caches (storage_insert name h (content o) cs).

(** [response.clone()] *)
Definition clone (l : nat) : M nat :=
  o ← deref l;
  if bodyUsed o then throw TypeError else alloc (content o).

(** *** The network *)

(** The network answers a method and a URL with a response, or fails. *)
Abbreviation network := (string → string → option Response).

Definition fetch (net : network) (m h : string) : M nat :=
  emit (EvFetch m h);;
  match net m h with
  | Some r => alloc r
  | None => throw NetworkError
  end.

Definition ok_status (st : Z) : bool := (200 <=? st) && (st <=? 299).

(** The responses that [cache.addAll] accepts: an ok status other than
    206, and no [*] in the [Vary] header. *)
Definition addable (r : Response) : bool :=
  ok_status (status r) && negb (status r =? 206) && negb (varies_on_all r).

Section Worker.

(** [location.origin], the origin the worker is served from. *)
Variable location_origin : string.

(** A URL given as text is resolved against the worker's location. *)
Definition resolve (u : string) : string :=
  if startsWith u "/" then (location_origin ++ u)%string else u.

(** [cache.addAll(urls)]: every URL is fetched; when one fetch fails or
    one response is not accepted, nothing is stored. *)
Fixpoint fetch_all (net : network) (urls : list string) : M (list (string * Response)) :=
  match urls with
  | [] => mret []
  | u :: urls' =>
      let h := resolve u in
      emit (EvFetch "GET" h);;
      rest ← fetch_all net urls';
      match net "GET" h with
      | Some r => if addable r then mret ((h, r) :: rest)
                  else throw TypeError
      | None => throw TypeError
      end
  end.

Definition cache_addAll (net : network) (name : string) (urls : list string) : M unit :=
  rs ← fetch_all net urls;
  cs ← get_caches;
  set_caches (foldl (λ acc p, storage_insert name p.1 p.2 acc) cs rs).

(** *** install *)

(** The promise given to [event.waitUntil]. *)
Definition install_handler (net : network) : M unit :=
  catch
    (cache ← caches_open CACHE_NAME;
     cache_addAll net cache STATIC_ASSETS;;
     skipWaiting)
    (λ error, emit EvConsoleError).

Inductive workerState :=
| Installed
| Redundant.

(** The runtime reads the promise: a rejection aborts the installation
    and discards the worker. *)
Definition install (net : network) (s : state) : workerState * state :=
  match install_handler net s with
  | (Ok _, s') => (Installed, s')
  | (Throw _, s') => (Redundant, s')
  end.

(** *** activate *)

Definition activate_handler : M unit :=
  cacheNames ← (cs ← get_caches; mret (cs.*1));
  let old := List.filter
               (λ name, negb (String.eqb name CACHE_NAME)
                        && negb (String.eqb name DYNAMIC_CACHE)) cacheNames in
  cs ← get_caches;
  set_caches (foldl (λ acc name, storage_delete name acc) cs old);;
  clients_claim.

(** *** fetch *)

(** What the handler does with the event: it returns without an answer,
    or it gives a promise to [event.respondWith]. *)
Inductive handled :=
| NotIntercepted
| RespondWith (r : result (option nat)).

Definition intercepts (req : Request) : bool :=
  negb (negb (String.eqb (origin (url req)) location_origin)
        && negb (includes (href (url req)) "unpkg.com")).

Definition respond (net : network) (req : Request) : M (option nat) :=
  let m := method req in
  let h := href (url req) in
  cachedResponse ← caches_match m h;
  match cachedResponse with
  | Some l => mret (Some l)
  | None =>
      catch
        (networkResponse ← fetch net m h;
         o ← deref networkResponse;
         (if status (content o) =? 200 then
            responseClone ← clone networkResponse;
            fire_and_forget
              (cache ← caches_open DYNAMIC_CACHE;
               cache_put cache m h responseClone)
          else mret tt);;
         mret (Some networkResponse))
        (λ error,
           if String.eqb (destination req) "document"
           then caches_match "GET" (resolve "/index.html")
           else throw error)
  end.

Definition fetch_handler (net : network) (req : Request) (s : state)
  : handled * state :=
  if intercepts req then
    match respond net req s with
    | (r, s') => (RespondWith r, s')
    end
  else (NotIntercepted, s).

(** *** message *)

Inductive message :=
| CLEAR_CACHE
| SKIP_WAITING
| OtherMessage.

Definition message_handler (data : message) : M unit :=
  match data with
  | CLEAR_CACHE =>
      cs ← get_caches;
      set_caches (foldl (λ acc name, storage_delete name acc) cs (cs.*1));;
      emit EvReply
  | SKIP_WAITING => skipWaiting
  | OtherMessage => mret tt
  end.

End Worker.

(** What the page receives for an intercepted request: the response that
    the promise resolved to, whose body is then read, or a network error. *)
Definition deliver (r : result (option nat)) (s : state) : option Response * state :=
  match r with
  | Ok (Some l) =>
      match heap s !! l with
      | Some o => if bodyUsed o then (None, s)
                  else (Some (content o), (consume l s).2)
      | None => (None, s)
      end
  | _ => (None, s)
  end.

(** *** Vocabulary of the specification *)

Definition initial : state :=
  {| caches := []; heap := []; log := [];
     skipWaitingCalled := false; clientsClaimed := false |}.


(** [r] is a snapshot kept for the URL [h] by some partition. *)
Definition snapshot_of (h : string) (cs : list (string * cache)) (r : Response) : Prop :=
  ∃ name c, (name, c) ∈ cs ∧ c !! h = Some r.

(** [s] with the events [es] added to its log. *)
Definition logged (es : list event) (s : state) : state :=
  {| caches := caches s; heap := heap s; log := log s ++ es;
     skipWaitingCalled := skipWaitingCalled s;
     clientsClaimed := clientsClaimed s |}.

(** A network that answers every request, and one that answers none. *)
Definition online : network :=
  λ m h, Some {| status := 200; body := h; vary := [] |}.
Definition offline : network := λ _ _, None.

Definition app_origin : string := "https://notes.example".

(** The worker of [app_origin] after an installation with the network
    up. *)
Definition installed : state := (install app_origin online initial).2.

(** The fetch of the asset [u] during [addAll] does not give an ok
    response. *)
Definition asset_fails (location_origin : string) (net : network) (u : string) : Prop :=
  match net "GET" (resolve location_origin u) with
  | Some r => ok_status (status r) = false
  | None => True
  end.

End ServiceWorker.

(** ** Arbitrary use of the record store *)

Module NotesDBOps.
Import JsString NotesDB.

(** A call of the store, with any argument the code accepts and the clock
    readings it makes. *)
Inductive call :=
| CallAdd (n : note) (t1 t2 : Z)
| CallUpdate (id : key) (updates : note) (t : Z)
| CallDelete (id : key).

Definition step (c : call) (os : objectStore) : objectStore :=
  match c with
  | CallAdd n t1 t2 => (addNote n t1 t2 os).2
  | CallUpdate id updates t => (updateNote id updates t os).2
  | CallDelete id => (deleteNote id os).2
  end.

Definition exec (cs : list call) (os : objectStore) : objectStore :=
  foldl (λ os c, step c os) os cs.

(** The key generator is past every numeric key in use, or exhausted. *)
Definition generator_ahead (os : objectStore) : Prop :=
  ∀ i, is_Some (records os !! KNum i) →
       i < keyGen os ∨ MAX_GENERATED_KEY < keyGen os.

(** The term occurs, case ignored, in the title of the note, or in its
    content. *)
Definition hit (term : string) (n : note) : Prop :=
  ∃ t, n !! "title" = Some (VStr t) ∧
       (ci_substring term t ∨
        ∃ c, n !! "content" = Some (VStr c) ∧ ci_substring term c).

(** Every record carries a numeric [updatedAt]. *)
Definition stamped (os : objectStore) : Prop :=
  ∀ k n, records os !! k = Some n → ∃ u, n !! "updatedAt" = Some (VNum u).

End NotesDBOps.

(** ** The life of a worker *)

Module ServiceWorkerOps.
Import JsString ServiceWorker.

(** The names of the partitions of this generation. *)
Definition current (name : string) : bool :=
  String.eqb name CACHE_NAME || String.eqb name DYNAMIC_CACHE.

(** The events that the runtime delivers to the worker, with the network
    as it is at that time. *)
Inductive signal :=
| SigInstall (net : network)
| SigActivate
| SigFetch (net : network) (req : Request)
| SigMessage (data : message).

(** The state after the handler of the event has run; for a request that
    the worker answers, after the page has read the answer. *)
Definition handle (location_origin : string) (sg : signal) (s : state) : state :=
  match sg with
  | SigInstall net => (install_handler location_origin net s).2
  | SigActivate => (activate_handler s).2
  | SigFetch net req =>
      match fetch_handler location_origin net req s with
      | (RespondWith r, s') => (deliver r s').2
      | (NotIntercepted, s') => s'
      end
  | SigMessage data => (message_handler data s).2
  end.

Definition life (location_origin : string) (sgs : list signal) (s : state) : state :=
  foldl (λ s sg, handle location_origin sg s) s sgs.

(** The asset [u] has an http URL, and its fetch gives a response with an
    ok status other than 206 and without a [Vary] header: one that
    [cache.addAll] stores and that every later request for the URL
    matches. *)
Definition asset_served (location_origin : string) (net : network) (u : string)
  : Prop :=
  http_scheme (resolve location_origin u) = true ∧
  ∃ r, net "GET" (resolve location_origin u) = Some r ∧
       ok_status (status r) = true ∧ status r ≠ 206 ∧ vary r = [].

(** The Cache Storage holds partitions of this generation only, each
    name once. *)
Definition tidy (cs : list (string * cache)) : Prop :=
  NoDup (cs.*1) ∧ Forall (λ name, current name = true) (cs.*1).

End ServiceWorkerOps.

(** ** The components of [app.jsx] *)

Module Components.
Import JsString NotesDB.

(** The white space of [\s] and of [trim], among the 8-bit code units. *)
Definition is_space (c : ascii) : bool :=
  let n := nat_of_ascii c in
  ((9 <=? n)%nat && (n <=? 13)%nat) || (n =? 32)%nat || (n =? 160)%nat.

Section NoteCard.

(** [date.toLocaleDateString('fr-FR', { day: 'numeric', month: 'short' })],
    which the platform provides. *)
Variable toLocaleDateString : Z → string.

(** [formatDate(timestamp)] of [NoteCard]; [now] is the reading of the
    clock.  Timestamps are whole milliseconds, on which the quotients are
    exact. *)
Definition formatDate (timestamp now : Z) : string :=
  let diff := now - timestamp in
  let minutes := diff / 60000 in
  let hours := diff / 3600000 in
  let days := diff / 86400000 in
  if minutes <? 1 then "À l'instant"
  else if minutes <? 60 then "Il y a " +:+ pretty minutes +:+ "min"
  else if hours <? 24 then "Il y a " +:+ pretty hours +:+ "h"
  else if days <? 7 then "Il y a " +:+ pretty days +:+ "j"
  else toLocaleDateString timestamp.

End NoteCard.

(** The preview line of [NoteCard]:
    [note.content ? note.content.substring(0, 80) + '...' : 'Aucun contenu']. *)
Definition preview (n : note) : error + string :=
  match n !! "content" with
  | None => inr "Aucun contenu"
  | Some (VStr c) =>
      match c with
      | EmptyString => inr "Aucun contenu"
      | _ => inr (String.substring 0 80 c +:+ "...")
      end
  | Some (VNum x) => if x =? 0 then inr "Aucun contenu" else inl TypeError
  | Some (VBool b) => if b then inl TypeError else inr "Aucun contenu"
  end.

(** [content.split(/\s+/)]: the pieces between the runs of white space;
    [cur] is the piece being read, and [skipping] tells that a run of
    white space is being passed. *)
Fixpoint split_go (skipping : bool) (cur : string) (s : string) : list string :=
  match s with
  | EmptyString => [cur]
  | String c s' =>
      if is_space c then
        if skipping then split_go true cur s'
        else cur :: split_go true EmptyString s'
      else split_go false (cur +:+ String c EmptyString) s'
  end.

Definition split_spaces (s : string) : list string := split_go false EmptyString s.

(** The word count of [Editor]:
    [content.split(/\s+/).filter(w => w.length > 0).length]. *)
Definition wordCount (content : string) : nat :=
  length (List.filter (λ w, (0 <? String.length w)%nat) (split_spaces content)).

(** [term.trim()] *)
Fixpoint trimStart (s : string) : string :=
  match s with
  | EmptyString => EmptyString
  | String c s' => if is_space c then trimStart s' else s
  end.

Fixpoint trimEnd (s : string) : string :=
  match s with
  | EmptyString => EmptyString
  | String c s' =>
      match trimEnd s' with
      | EmptyString => if is_space c then EmptyString else String c EmptyString
      | t => String c t
      end
  end.

Definition trim (s : string) : string := trimEnd (trimStart s).

(** The number of places of a text where a word begins; [inword] tells
    that the place before holds a letter of a word. *)
Fixpoint word_starts (inword : bool) (s : string) : nat :=
  match s with
  | EmptyString => 0
  | String c s' =>
      if is_space c then word_starts false s'
      else (if inword then 0 else 1) + word_starts true s'
  end.

End Components.

(** ** The handlers of [App] *)

Module App.
Import JsString NotesDB Components.

(** The state of [App] that its handlers read and set. *)
Record view := View {
  notes : list note;
  selectedNote : option note;
  searchTerm : string;
  stats_total : nat;
  stats_today : nat;
  isMobile : bool;
  showSidebar : bool
}.

(** A field as a number.  [None]: the field is missing or is not a
    number; the comparator of the sort is then not a consistent order, or
    goes through the conversion of a string, and the sort is outside this
    model. *)
Definition number_field (f : string) (n : note) : option Z :=
  match n !! f with
  | Some (VNum t) => Some t
  | _ => None
  end.

Fixpoint with_updatedAt (l : list note) : option (list (Z * note)) :=
  match l with
  | [] => Some []
  | n :: l' =>
      match number_field "updatedAt" n, with_updatedAt l' with
      | Some t, Some r => Some ((t, n) :: r)
      | _, _ => None
      end
  end.

(** [sort((a, b) => b.updatedAt - a.updatedAt)]: the stable sort, most
    recent first. *)
Fixpoint insert_recent (x : Z * note) (l : list (Z * note)) : list (Z * note) :=
  match l with
  | [] => [x]
  | y :: l' => if x.1 <? y.1 then y :: insert_recent x l' else x :: l
  end.

Definition sort_recent (l : list (Z * note)) : list (Z * note) :=
  foldr insert_recent [] l.

Definition sortByUpdatedAt (l : list note) : option (list note) :=
  match with_updatedAt l with
  | Some keyed => Some ((sort_recent keyed).*2)
  | None => None
  end.

(** [n.createdAt >= today].  A missing field compares as false.  [None]:
    the field is a string, whose conversion is outside this model. *)
Definition created_since (today : Z) (n : note) : option bool :=
  match n !! "createdAt" with
  | Some (VNum c) => Some (today <=? c)
  | Some (VBool b) => Some (today <=? (if b then 1 else 0))
  | Some (VStr _) => None
  | None => Some false
  end.

Fixpoint count_since (today : Z) (l : list note) : option nat :=
  match l with
  | [] => Some 0%nat
  | n :: l' =>
      match created_since today n, count_since today l' with
      | Some b, Some k => Some (if b then S k else k)
      | _, _ => None
      end
  end.

(** [n.id === id] *)
Definition has_id (id : key) (n : note) : bool :=
  bool_decide (n !! "id" = Some (value_of_key id)).

(** [loadNotes()]; [today] is the midnight that [setHours(0, 0, 0, 0)]
    gives. *)
Definition loadNotes (today : Z) (os : objectStore) (v : view) : option view :=
  match getAllNotes os with
  | Resolved allNotes =>
      match sortByUpdatedAt allNotes with
      | Some sorted =>
          match count_since today sorted with
          | Some k =>
              Some {| notes := sorted;
                      selectedNote := selectedNote v;
                      searchTerm := searchTerm v;
                      stats_total := length sorted;
                      stats_today := k;
                      isMobile := isMobile v;
                      showSidebar := showSidebar v |}
          | None => None
          end
      | None => None
      end
  | _ => Some v
  end.

Definition set_selected (sel : option note) (v : view) : view :=
  {| notes := notes v; selectedNote := sel; searchTerm := searchTerm v;
     stats_total := stats_total v; stats_today := stats_today v;
     isMobile := isMobile v; showSidebar := showSidebar v |}.

Definition set_showSidebar (b : bool) (v : view) : view :=
  {| notes := notes v; selectedNote := selectedNote v; searchTerm := searchTerm v;
     stats_total := stats_total v; stats_today := stats_today v;
     isMobile := isMobile v; showSidebar := b |}.

Definition set_searchTerm (term : string) (v : view) : view :=
  {| notes := notes v; selectedNote := selectedNote v; searchTerm := term;
     stats_total := stats_total v; stats_today := stats_today v;
     isMobile := isMobile v; showSidebar := showSidebar v |}.

Definition set_notes (l : list note) (v : view) : view :=
  {| notes := l; selectedNote := selectedNote v; searchTerm := searchTerm v;
     stats_total := stats_total v; stats_today := stats_today v;
     isMobile := isMobile v; showSidebar := showSidebar v |}.

(** [createNote()]; [color] is what [getRandomColor()] gives.  A rejected
    [addNote] is caught and logged. *)
Definition createNote (color : string) (t1 t2 today : Z) (os : objectStore) (v : view)
  : option (objectStore * view) :=
  let newNote : note :=
    <["title" := VStr "Nouvelle note"]>
      (<["content" := VStr ""]> (<["color" := VStr color]> ∅)) in
  match addNote newNote t1 t2 os with
  | (Resolved id, os') =>
      match loadNotes today os' v with
      | Some v1 =>
          let createdNote := List.find (has_id id) (getAll os') in
          let v2 := set_selected createdNote v1 in
          Some (os', if isMobile v then set_showSidebar false v2 else v2)
      | None => None
      end
  | (_, os') => Some (os', v)
  end.

(** [updateNote(id, updates)] of [App].  A rejection is caught and
    logged; after a promise that never settles nothing happens. *)
Definition updateNote (id : key) (updates : note) (t today : Z)
    (os : objectStore) (v : view) : option (objectStore * view) :=
  match NotesDB.updateNote id updates t os with
  | (Resolved _, os') =>
      match loadNotes today os' v with
      | Some v1 =>
          match selectedNote v with
          | Some sel =>
              if has_id id sel
              then Some (os', set_selected (List.find (has_id id) (getAll os')) v1)
              else Some (os', v1)
          | None => Some (os', v1)
          end
      | None => None
      end
  | (_, os') => Some (os', v)
  end.

(** [deleteNote(id)] of [App]; [confirmed] is the answer to [confirm]. *)
Definition deleteNote (confirmed : bool) (id : key) (today : Z)
    (os : objectStore) (v : view) : option (objectStore * view) :=
  if negb confirmed then Some (os, v)
  else
    match NotesDB.deleteNote id os with
    | (Resolved _, os') =>
        match loadNotes today os' v with
        | Some v1 =>
            match selectedNote v with
            | Some sel =>
                if has_id id sel then Some (os', set_selected None v1)
                else Some (os', v1)
            | None => Some (os', v1)
            end
        | None => None
        end
    | (_, os') => Some (os', v)
    end.

(** [handleSearch(term)] *)
Definition handleSearch (term : string) (today : Z) (os : objectStore) (v : view)
  : option view :=
  let v0 := set_searchTerm term v in
  if String.eqb (trim term) "" then loadNotes today os v0
  else
    match searchNotes term os with
    | Resolved results =>
        match sortByUpdatedAt results with
        | Some sorted => Some (set_notes sorted v0)
        | None => None
        end
    | _ => Some v0
    end.

(** One note is at least as recent as another. *)
Definition as_recent (a b : note) : Prop :=
  ∃ x y, number_field "updatedAt" a = Some x ∧
         number_field "updatedAt" b = Some y ∧ y ≤ x.

(** No record has a string for [createdAt]. *)
Definition dated (os : objectStore) : Prop :=
  ∀ k n s, records os !! k = Some n → n !! "createdAt" ≠ Some (VStr s).

End App.

(** ** The search over text of other scripts *)

Module Utf16.

(** A JavaScript string as it is: a sequence of 16-bit code units. *)
Abbreviation ustring := (list N).

(** The code units of a [string]. *)
Definition units (s : string) : ustring :=
  N_of_ascii <$> list_ascii_of_string s.

Definition between (lo hi c : N) : bool := ((lo <=? c) && (c <=? hi))%N.

(** The characters that this model holds: Basic Latin, the Latin-1
    Supplement (U+0000 to U+00FF) and the Greek letters Α to Ω (U+0391 to
    U+03A9) and α to ω (U+03B1 to U+03C9, the final sigma ς among them).
    A string with another code unit is outside the model. *)
Definition modelled (c : N) : bool :=
  between 0x00 0xFF c || between 0x391 0x3A1 c || between 0x3A3 0x3A9 c
  || between 0x3B1 0x3C9 c.

(** The capital letters of the model; each has its small form 32 places
    further on. *)
Definition capital (c : N) : bool :=
  between 0x41 0x5A c || between 0xC0 0xD6 c || between 0xD8 0xDE c
  || between 0x391 0x3A1 c || between 0x3A3 0x3A9 c.

(** The small letters of the model, with ª, µ and º. *)
Definition small (c : N) : bool :=
  between 0x61 0x7A c || (c =? 0xAA)%N || (c =? 0xB5)%N || (c =? 0xBA)%N
  || between 0xDF 0xF6 c || between 0xF8 0xFF c || between 0x3B1 0x3C9 c.

(** The property [Cased] of the Unicode character database. *)
Definition cased (c : N) : bool := capital c || small c.

(** The property [Case_Ignorable]: in the model, the characters
    ' . : ^ ` and ¨ ¯ ´ · ¸ and the soft hyphen. *)
Definition case_ignorable (c : N) : bool :=
  bool_decide (c ∈ [0x27; 0x2E; 0x3A; 0x5E; 0x60;
                    0xA8; 0xAD; 0xAF; 0xB4; 0xB7; 0xB8]%N).

Definition CAPITAL_SIGMA : N := 0x3A3.
Definition SMALL_SIGMA : N := 0x3C3.
Definition SMALL_FINAL_SIGMA : N := 0x3C2.

(** The first code unit of [s] that is not case-ignorable is a cased
    letter. *)
Fixpoint cased_first (s : ustring) : bool :=
  match s with
  | [] => false
  | c :: s' => if case_ignorable c then cased_first s' else cased c
  end.

(** The condition [Final_Sigma] of the special casing of Σ: a cased letter
    comes before it and none comes after it, case-ignorable characters
    skipped.  [before] holds the code units before the Σ, the nearest
    first; [after] holds those that follow. *)
Definition final_sigma (before after : ustring) : bool :=
  cased_first before && negb (cased_first after).

(** The lower case mapping of [s], which comes after [before]. *)
Fixpoint lower_from (before s : ustring) : ustring :=
  match s with
  | [] => []
  | c :: s' =>
      (if (c =? CAPITAL_SIGMA)%N
       then if final_sigma before s' then SMALL_FINAL_SIGMA else SMALL_SIGMA
       else if capital c then (c + 32)%N
       else c) :: lower_from (c :: before) s'
  end.

(** [String.prototype.toLowerCase]; [None] for a string outside the
    model. *)
Definition toLowerCase (s : ustring) : option ustring :=
  if forallb modelled s then Some (lower_from [] s) else None.

Fixpoint startsWith (s t : ustring) : bool :=
  match t, s with
  | [], _ => true
  | _ :: _, [] => false
  | b :: t', a :: s' => if (a =? b)%N then startsWith s' t' else false
  end.

(** [String.prototype.includes] *)
Fixpoint includes (s t : ustring) : bool :=
  if startsWith s t then true
  else match s with
       | [] => false
       | _ :: s' => includes s' t
       end.

(** Notes and their store, as in [NotesDB], with strings of 16-bit code
    units. *)
Inductive value :=
| VNum (n : Z)
| VStr (s : ustring)
| VBool (b : bool).

Abbreviation note := (gmap string value).

Record objectStore := ObjectStore {
  records : gmap NotesDB.key note;
  keyGen : Z
}.

(** [objectStore.getAll()]: every record, by ascending key. *)
Definition getAll (os : objectStore) : list note :=
  (merge_sort (λ p q : NotesDB.key * note, NotesDB.key_leb p.1 q.1)
              (map_to_list (records os))).*2.

(** The callback of [allNotes.filter] in [searchNotes]; [term] is already
    in lower case.  [None]: a string of the note is outside the model. *)
Definition note_matches (term : ustring) (n : note)
  : option (NotesDB.error + bool) :=
  match n !! "title" with
  | Some (VStr t) =>
      t' ← toLowerCase t;
      if includes t' term then Some (inr true)
      else match n !! "content" with
           | Some (VStr c) => c' ← toLowerCase c; Some (inr (includes c' term))
           | _ => Some (inl NotesDB.TypeError)
           end
  | _ => Some (inl NotesDB.TypeError)
  end.

Fixpoint filter_notes (term : ustring) (l : list note)
  : option (NotesDB.error + list note) :=
  match l with
  | [] => Some (inr [])
  | n :: l' =>
      m ← note_matches term n;
      match m : NotesDB.error + bool with
      | inl e => Some (inl e)
      | inr b =>
          rest ← filter_notes term l';
          match rest : NotesDB.error + list note with
          | inl e => Some (inl e)
          | inr r => Some (inr (if b then n :: r else r))
          end
      end
  end.

Definition searchNotes (searchTerm : ustring) (os : objectStore)
  : option (NotesDB.outcome (list note)) :=
  let allNotes := getAll os in
  term ← toLowerCase searchTerm;
  found ← filter_notes term allNotes;
  Some (match found : NotesDB.error + list note with
        | inr r => NotesDB.Resolved r
        | inl e => NotesDB.Rejected e
        end).

(** The text of a [string] in 16-bit code units. *)
Definition widen (v : NotesDB.value) : value :=
  match v with
  | NotesDB.VNum n => VNum n
  | NotesDB.VStr s => VStr (units s)
  | NotesDB.VBool b => VBool b
  end.

Definition widen_note (n : NotesDB.note) : note := widen <$> n.

Definition widen_store (os : NotesDB.objectStore) : objectStore :=
  {| records := widen_note <$> NotesDB.records os;
     keyGen := NotesDB.keyGen os |}.

Definition widen_outcome (o : NotesDB.outcome (list NotesDB.note))
  : NotesDB.outcome (list note) :=
  match o with
  | NotesDB.Resolved r => NotesDB.Resolved (widen_note <$> r)
  | NotesDB.Rejected e => NotesDB.Rejected e
  | NotesDB.Unsettled => NotesDB.Unsettled
  end.

End Utf16.

(** * Properties of the string operations *)

Module JsStringSpec.
Import JsString.
Local Open Scope string_scope.

Lemma append_nil (s : string) : "" ++ s = s.
Proof. reflexivity. Qed.

Lemma append_cons (c : ascii) (s t : string) : String c s ++ t = String c (s ++ t).
Proof. reflexivity. Qed.

Lemma startsWith_spec (t : string) : ∀ s : string,
  startsWith s t = true ↔ ∃ post, s = t ++ post.
Proof.
  induction t as [| b t IH]; intros s; simpl.
  - split; [intros _; by exists s | intros _; by destruct s].
  - destruct s as [| a s].
    + split; [done | by intros [post [=]]].
    + simpl. setoid_rewrite append_cons.
      destruct (Ascii.eqb_spec a b) as [-> | Hne].
      * rewrite IH. split; intros [post Hp]; exists post; congruence.
      * split; [done | intros [post Hp]; congruence].
Qed.

Lemma startsWith_nil (s : string) : startsWith s "" = true.
Proof. by destruct s. Qed.

Lemma includes_unfold (s t : string) :
  includes s t = if startsWith s t then true
                 else match s with
                      | "" => false
                      | String _ s' => includes s' t
                      end.
Proof. destruct s; reflexivity. Qed.

Lemma includes_spec (t : string) : ∀ s : string,
  includes s t = true ↔ ∃ pre post, s = pre ++ t ++ post.
Proof.
  induction s as [| a s IH]; rewrite includes_unfold.
  - destruct (startsWith "" t) eqn:Hst.
    + apply startsWith_spec in Hst as [post Hpost]. split; [| done].
      intros _. by exists "", post.
    + split; [done |]. intros (pre & post & Heq).
      destruct pre; [| done]. rewrite append_nil in Heq.
      assert (startsWith "" t = true) by (apply startsWith_spec; eauto).
      congruence.
  - destruct (startsWith (String a s) t) eqn:Hst.
    + apply startsWith_spec in Hst as [post Hpost]. split; [| done].
      intros _. by exists "", post.
    + rewrite IH. split.
      * intros (pre & post & ->). by exists (String a pre), post.
      * intros (pre & post & Heq). destruct pre as [| a' pre].
        -- rewrite append_nil in Heq.
           assert (startsWith (String a s) t = true) by (apply startsWith_spec; eauto).
           congruence.
        -- rewrite append_cons in Heq. injection Heq as -> ->. eauto.
Qed.

Lemma includes_nil (s : string) : includes s "" = true.
Proof. destruct s; reflexivity. Qed.

Lemma toLowerCase_app (a b : string) :
  toLowerCase (a ++ b) = toLowerCase a ++ toLowerCase b.
Proof.
  induction a as [| c a IH]; [done |].
  rewrite append_cons. simpl. by rewrite append_cons, IH.
Qed.

(** A split of the lowered string comes from a split of the string. *)
Lemma toLowerCase_split (a b : string) : ∀ s : string,
  toLowerCase s = a ++ b →
  ∃ x y, s = x ++ y ∧ toLowerCase x = a ∧ toLowerCase y = b.
Proof.
  induction a as [| c a IH]; intros s.
  - intros Hs. by exists "", s.
  - rewrite append_cons. destruct s as [| d s]; simpl; [done |].
    intros [= Hc Hs]. destruct (IH _ Hs) as (x & y & -> & Hx & Hy).
    exists (String d x), y. simpl. by rewrite Hc, Hx.
Qed.

End JsStringSpec.

(** * Properties of the record store *)

Module NotesDBSpec.
Import JsString NotesDB.

(** ** Update of an absent record *)

(** C1: [updateNote] on an id that the store does not hold is rejected
    with the error 'Note non trouvée' and returns the store as it was: no
    record is created and none is changed.  The same holds for an id
    that has just been deleted. *)
Theorem updateNote_absent (id : key) (updates : note) (t : Z) (os : objectStore) :
  records os !! id = None →
  updateNote id updates t os = (Rejected NoteNonTrouvee, os) ∧
  (updateNote id updates t os).2 = os ∧
  getAll (updateNote id updates t os).2 = getAll os ∧
  updateNote id updates t (deleteNote id os).2
    = (Rejected NoteNonTrouvee, (deleteNote id os).2).
Proof.
  intros Habs. unfold updateNote. rewrite Habs. simpl.
  rewrite lookup_delete_eq. auto.
Qed.

Lemma updateNote_absent_witness :
  records (init None) !! KNum 4 = None ∧
  updateNote (KNum 4) (to_note {| title := "t"; content := "c"; color := "red" |})
    7 (init None) = (Rejected NoteNonTrouvee, init None).
Proof.
  split; [reflexivity |].
  apply (updateNote_absent (KNum 4) _ 7 (init None)). reflexivity.
Defined.

(** ** Ids issued by [addNote] *)

Lemma to_note_no_id (n : newNote) (t1 t2 : Z) :
  extract_key (<["updatedAt" := VNum t2]> (<["createdAt" := VNum t1]> (to_note n)))
  = NoKey.
Proof. reflexivity. Qed.

(** An [Add] either returns the current number of the key generator and
    advances it, or fails and changes nothing. *)
Lemma addNote_to_note (n : newNote) (t1 t2 : Z) (os : objectStore) :
  (∃ os', addNote (to_note n) t1 t2 os = (Resolved (KNum (keyGen os)), os') ∧
          keyGen os' = keyGen os + 1) ∨
  (∃ e, addNote (to_note n) t1 t2 os = (Rejected e, os)).
Proof.
  unfold addNote, add, store_record. rewrite to_note_no_id.
  destruct (MAX_GENERATED_KEY <? keyGen os); [right; eauto |].
  destruct (_ && _)%bool; [right; eauto |].
  left. eexists. split; reflexivity.
Qed.

Lemma run_ids (ops : list op) : ∀ os : objectStore,
  keyGen os ≤ keyGen (run ops os).2 ∧
  Forall (λ k, ∃ i, k = KNum i ∧ keyGen os ≤ i < keyGen (run ops os).2) (run ops os).1 ∧
  NoDup (run ops os).1.
Proof.
  induction ops as [| o ops IH]; intros os; simpl.
  - split; [lia |]. split; constructor.
  - destruct o as [n t1 t2 | id].
    + destruct (addNote_to_note n t1 t2 os) as [(os' & -> & Hgen) | (e & ->)].
      * destruct (IH os') as (Hle & Hall & Hnd).
        destruct (run ops os') as [ks os'']; simpl in *.
        split; [lia |]. split.
        -- constructor; [exists (keyGen os); split; [done | lia] |].
           eapply Forall_impl; [exact Hall |].
           intros k (i & -> & Hi). exists i. split; [done | lia].
        -- constructor; [| done].
           intros Hin. rewrite Forall_forall in Hall.
           destruct (Hall _ Hin) as (i & Heq & Hi).
           injection Heq as <-. lia.
      * apply IH.
    + apply (IH (deleteNote id os).2).
Qed.

(** C2: along every sequence of [Add] and [Delete] on a new store, the
    ids that the [Add]s return are pairwise distinct: an id is never
    issued twice, whatever was deleted in between.  They are the numbers
    that the key generator has gone through. *)
Theorem add_ids_distinct (ops : list op) :
  NoDup (run ops (init None)).1 ∧
  Forall (λ k, ∃ i, k = KNum i ∧ 1 ≤ i < keyGen (run ops (init None)).2)
    (run ops (init None)).1.
Proof.
  destruct (run_ids ops (init None)) as (_ & Hall & Hnd).
  split; [exact Hnd | exact Hall].
Qed.

(** The scenario of the specification: ids 1 and 2, id 1 deleted, then
    id 3; the store then holds the records 2 and 3. *)
Example add_delete_add :
  let ops := [ Add {| title := "A"; content := "x"; color := "" |} 10 10;
               Add {| title := "B"; content := "y"; color := "" |} 11 11;
               Delete (KNum 1);
               Add {| title := "C"; content := "z"; color := "" |} 12 12 ] in
  (run ops (init None)).1 = [KNum 1; KNum 2; KNum 3] ∧
  (λ n : note, n !! "id") <$> getAll (run ops (init None)).2
    = [Some (VNum 2); Some (VNum 3)].
Proof. vm_compute. split; reflexivity. Qed.

(** ** Invariants of the store *)

Lemma key_of_value_inv (v : value) (k : key) :
  key_of_value v = Some k → v = value_of_key k.
Proof. destruct v; simpl; intros [= <-]; reflexivity. Qed.

Lemma key_of_value_of_key (k : key) : key_of_value (value_of_key k) = Some k.
Proof. destruct k; reflexivity. Qed.

Lemma extract_key_inline (n : note) (k : key) :
  extract_key n = InlineKey k ↔ n !! "id" = Some (value_of_key k).
Proof.
  unfold extract_key. split.
  - destruct (n !! "id") as [v |]; [| done].
    destruct (key_of_value v) as [k' |] eqn:Hk; [| done].
    intros [= <-]. by rewrite (key_of_value_inv _ _ Hk).
  - intros ->. by rewrite key_of_value_of_key.
Qed.

Lemma store_wf_init : store_wf (init None).
Proof. intros k n. simpl. by rewrite lookup_empty. Qed.

Lemma store_record_wf (b : bool) (n : note) (os os' : objectStore) (k : key) :
  store_wf os → store_record b n os = inr (k, os') → store_wf os'.
Proof.
  intros Hwf. unfold store_record.
  destruct (extract_key n) as [| | k0] eqn:Hex; [| done |].
  - destruct (MAX_GENERATED_KEY <? keyGen os); [done |].
    destruct (_ && _)%bool; [done |].
    intros [= <- <-] k' n'. simpl.
    destruct (decide (k' = KNum (keyGen os))) as [-> | Hne].
    + rewrite lookup_insert_eq. intros [= <-]. by rewrite lookup_insert_eq.
    + rewrite lookup_insert_ne by done. apply Hwf.
  - destruct (_ && _)%bool; [done |].
    intros [= <- <-] k' n'. simpl.
    destruct (decide (k' = k0)) as [-> | Hne].
    + rewrite lookup_insert_eq. intros [= <-]. by apply extract_key_inline.
    + rewrite lookup_insert_ne by done. apply Hwf.
Qed.

Lemma store_wf_addNote (n : note) (t1 t2 : Z) (os : objectStore) :
  store_wf os → store_wf (addNote n t1 t2 os).2.
Proof.
  intros Hwf. unfold addNote, add.
  destruct (store_record _ _ _) as [e | [k os']] eqn:Hst; [done |].
  simpl. eapply store_record_wf; eauto.
Qed.

Lemma store_wf_updateNote (id : key) (updates : note) (t : Z) (os : objectStore) :
  store_wf os → store_wf (updateNote id updates t os).2.
Proof.
  intros Hwf. unfold updateNote, put.
  destruct (records os !! id); [| done].
  destruct (store_record _ _ _) as [e | [k os']] eqn:Hst.
  - by destruct e.
  - simpl. eapply store_record_wf; eauto.
Qed.

Lemma store_wf_deleteNote (id : key) (os : objectStore) :
  store_wf os → store_wf (deleteNote id os).2.
Proof.
  intros Hwf k n. simpl. intros Hl.
  apply lookup_delete_Some in Hl as [_ Hl]. by apply Hwf.
Qed.

Lemma keys_generated_init : keys_generated (init None).
Proof. intros k [n Hn]. simpl in Hn. by rewrite lookup_empty in Hn. Qed.

(** On a store whose keys were all generated, an [Add] succeeds until the
    key generator is exhausted. *)
Lemma addNote_succeeds (n : newNote) (t1 t2 : Z) (os : objectStore) :
  keys_generated os → keyGen os ≤ MAX_GENERATED_KEY →
  ∃ os', addNote (to_note n) t1 t2 os = (Resolved (KNum (keyGen os)), os') ∧
         keyGen os' = keyGen os + 1 ∧ keys_generated os'.
Proof.
  intros Hkeys Hmax. unfold addNote, add, store_record. rewrite to_note_no_id.
  destruct (Z.ltb_spec MAX_GENERATED_KEY (keyGen os)) as [? | _]; [lia |].
  rewrite bool_decide_eq_false_2.
  - simpl. eexists. split; [reflexivity |]. split; [reflexivity |].
    intros k. simpl. destruct (decide (k = KNum (keyGen os))) as [-> | Hne].
    + intros _. exists (keyGen os). split; [done | lia].
    + rewrite lookup_insert_ne by done. intros Hk.
      destruct (Hkeys _ Hk) as (i & -> & Hi). exists i. split; [done | lia].
  - intros Hsome. destruct (Hkeys _ Hsome) as (i & [= <-] & Hi). lia.
Qed.

Lemma keys_generated_deleteNote (id : key) (os : objectStore) :
  keys_generated os → keys_generated (deleteNote id os).2.
Proof.
  intros Hkeys k [n Hn]. simpl in *.
  apply lookup_delete_Some in Hn as [_ Hn]. apply Hkeys. eauto.
Qed.

Definition count_adds (ops : list op) : Z :=
  Z.of_nat (length (List.filter (λ o, match o with Add _ _ _ => true | _ => false end) ops)).

(** Below the bound of the key generator every [Add] of a sequence
    returns an id. *)
Lemma run_adds_succeed (ops : list op) : ∀ os : objectStore,
  keys_generated os →
  keyGen os + count_adds ops ≤ MAX_GENERATED_KEY + 1 →
  Z.of_nat (length (run ops os).1) = count_adds ops.
Proof.
  unfold count_adds.
  induction ops as [| o ops IH]; intros os Hkeys Hmax; [done |].
  destruct o as [n t1 t2 | id]; simpl in *.
  - destruct (addNote_succeeds n t1 t2 os Hkeys) as (os' & -> & Hgen & Hkeys'); [lia |].
    specialize (IH os' Hkeys'). destruct (run ops os') as [ks os'']. simpl in *. lia.
  - apply IH; [by apply keys_generated_deleteNote | simpl; lia].
Qed.

(** ** Update of a stored record *)

Definition grocery : newNote :=
  {| title := "Grocery List"; content := "milk, eggs"; color := "#f39c12" |}.

(** The store after [addNote] of [grocery] at time 10: one record, id 1. *)
Definition one_note : objectStore := (addNote (to_note grocery) 10 10 (init None)).2.

(** C3, as stated, fails: changes that carry a [createdAt] or an [id]
    field overwrite those of the record.  With [{createdAt: 0}] the
    record 1 gets [createdAt = 0]; with [{id: 7}] the record returned has
    id 7 and is stored as a second record. *)
Lemma updateNote_overwrites_createdAt_and_id :
  (records one_note !! KNum 1 ≫= (.!! "createdAt") = Some (VNum 10) ∧
   records one_note !! KNum 1 ≫= (.!! "id") = Some (VNum 1)) ∧
  (∃ n' os', updateNote (KNum 1) {[ "createdAt" := VNum 0 ]} 20 one_note
             = (Resolved n', os') ∧
             n' !! "createdAt" = Some (VNum 0) ∧
             records os' !! KNum 1 ≫= (.!! "createdAt") = Some (VNum 0)) ∧
  (∃ n' os', updateNote (KNum 1) {[ "id" := VNum 7 ]} 20 one_note
             = (Resolved n', os') ∧
             n' !! "id" = Some (VNum 7) ∧
             is_Some (records os' !! KNum 7)).
Proof.
  split; [split; reflexivity |]. split.
  - eexists _, _. split; [reflexivity |]. split; reflexivity.
  - eexists _, _. split; [reflexivity |]. split; [reflexivity |].
    eexists. reflexivity.
Qed.

(** C3, amended: for a stored record and changes that have no [id] and no
    [createdAt] field, [updateNote] resolves with the merged record and
    writes it back under the same id; the fields [id] and [createdAt]
    are those of the record before, every other record is untouched, and
    [updatedAt] is the clock reading, which is not below the former
    [updatedAt] when the clock has not gone back. *)
Theorem updateNote_frame (id : key) (updates n : note) (t u : Z) (os : objectStore) :
  store_wf os →
  records os !! id = Some n →
  updates !! "id" = None →
  updates !! "createdAt" = None →
  n !! "updatedAt" = Some (VNum u) →
  u ≤ t →
  ∃ n' os',
    updateNote id updates t os = (Resolved n', os') ∧
    records os' !! id = Some n' ∧
    (∀ k, k ≠ id → records os' !! k = records os !! k) ∧
    n' !! "id" = n !! "id" ∧
    n' !! "id" = Some (value_of_key id) ∧
    n' !! "createdAt" = n !! "createdAt" ∧
    (∃ u', n' !! "updatedAt" = Some (VNum u') ∧ u ≤ u' ∧ u' = t).
Proof.
  intros Hwf Hn Hid Hcr Hup Hclock.
  assert (Hkey : (<["updatedAt" := VNum t]> (updates ∪ n) : note) !! "id"
                 = Some (value_of_key id)).
  { rewrite lookup_insert_ne by done. rewrite lookup_union_r by done. by apply Hwf. }
  unfold updateNote, put, store_record. rewrite Hn.
  apply extract_key_inline in Hkey as Hex. rewrite Hex. simpl.
  eexists _, _. split; [reflexivity |]. simpl.
  split; [by rewrite lookup_insert_eq |].
  split; [by intros k Hk; rewrite lookup_insert_ne |].
  split; [by rewrite Hkey; symmetry; apply Hwf |].
  split; [done |].
  split; [by rewrite lookup_insert_ne by done; rewrite lookup_union_r by done |].
  exists t. by rewrite lookup_insert_eq.
Qed.

Lemma updateNote_frame_witness :
  ∃ n' os',
    updateNote (KNum 1) {[ "title" := VStr "Groceries" ]} 20 one_note
      = (Resolved n', os') ∧
    n' !! "id" = Some (VNum 1) ∧
    n' !! "createdAt" = Some (VNum 10) ∧
    n' !! "updatedAt" = Some (VNum 20) ∧
    n' !! "title" = Some (VStr "Groceries").
Proof.
  destruct (updateNote_frame (KNum 1) {[ "title" := VStr "Groceries" ]}
              (<["id" := VNum 1]>
                 (<["updatedAt" := VNum 10]>
                    (<["createdAt" := VNum 10]> (to_note grocery))))
              20 10 one_note)
    as (n' & os' & Hrun & _ & _ & Hid & _ & Hcr & (u' & Hup & _ & ->)).
  - apply store_wf_addNote, store_wf_init.
  - reflexivity.
  - reflexivity.
  - reflexivity.
  - reflexivity.
  - lia.
  - exists n', os'. split; [exact Hrun |].
    split; [by rewrite Hid |]. split; [by rewrite Hcr |]. split; [exact Hup |].
    injection Hrun as <- _. reflexivity.
Defined.

(** ** Search *)

Lemma is_capital_spec (c : ascii) :
  is_capital c = true ↔
  ((65 ≤ nat_of_ascii c ∧ nat_of_ascii c ≤ 90)
   ∨ (192 ≤ nat_of_ascii c ∧ nat_of_ascii c ≤ 214)
   ∨ (216 ≤ nat_of_ascii c ∧ nat_of_ascii c ≤ 222))%nat.
Proof.
  unfold is_capital. cbv zeta.
  rewrite !orb_true_iff, !andb_true_iff, !Nat.leb_le. tauto.
Qed.

Lemma lower_unit_code (c : ascii) :
  nat_of_ascii (lower_unit c)
  = if is_capital c then (nat_of_ascii c + 32)%nat else nat_of_ascii c.
Proof.
  unfold lower_unit. destruct (is_capital c) eqn:Hc; [| done].
  apply is_capital_spec in Hc. apply nat_ascii_embedding. lia.
Qed.

Lemma code_inj (a b : ascii) : nat_of_ascii a = nat_of_ascii b → a = b.
Proof.
  intros H. rewrite <- (ascii_nat_embedding a), <- (ascii_nat_embedding b).
  by rewrite H.
Qed.

(** Two code units are forms of one letter when [toLowerCase] maps them to
    the same code unit, and only then. *)
Lemma same_letter_lower (a b : ascii) :
  same_letter a b ↔ lower_unit a = lower_unit b.
Proof.
  unfold same_letter, small_of. cbv zeta. split.
  - intros [-> | [[Ha Hb] | [Hb Ha]]]; [done | |]; apply code_inj;
      rewrite !lower_unit_code.
    + destruct (is_capital a) eqn:Ca; [| apply is_capital_spec in Ha; congruence].
      destruct (is_capital b) eqn:Cb; [apply is_capital_spec in Cb; lia | done].
    + destruct (is_capital b) eqn:Cb; [| apply is_capital_spec in Hb; congruence].
      destruct (is_capital a) eqn:Ca; [apply is_capital_spec in Ca; lia | done].
  - intros H. apply (f_equal nat_of_ascii) in H. rewrite !lower_unit_code in H.
    destruct (is_capital a) eqn:Ca, (is_capital b) eqn:Cb.
    + left. apply code_inj. lia.
    + right; left. apply is_capital_spec in Ca. split; [exact Ca | lia].
    + right; right. apply is_capital_spec in Cb. split; [exact Cb | lia].
    + left. by apply code_inj.
Qed.

Lemma ci_eq_lower (s t : string) : ci_eq s t ↔ toLowerCase s = toLowerCase t.
Proof.
  split.
  - induction 1 as [| a b s t Hab _ IH]; simpl; [done |].
    apply same_letter_lower in Hab. by rewrite Hab, IH.
  - revert t. induction s as [| a s IH]; intros [| b t]; simpl; try done.
    + constructor.
    + intros [= Hab Hst]. constructor; [by apply same_letter_lower | auto].
Qed.

(** The test of [searchNotes] on one field decides the occurrence of the
    term, case ignored. *)
Lemma includes_lower (term s : string) :
  includes (toLowerCase s) (toLowerCase term) = true ↔ ci_substring term s.
Proof.
  rewrite JsStringSpec.includes_spec. unfold ci_substring. split.
  - intros (pre & post & Heq).
    apply JsStringSpec.toLowerCase_split in Heq as (x & y & -> & _ & Hy).
    apply JsStringSpec.toLowerCase_split in Hy as (m & z & -> & Hm & _).
    exists x, m, z. split; [done |]. by apply ci_eq_lower.
  - intros (pre & mid & post & -> & Hci). apply ci_eq_lower in Hci.
    exists (toLowerCase pre), (toLowerCase post).
    by rewrite !JsStringSpec.toLowerCase_app, Hci.
Qed.

Definition search_hitb (term : string) (n : note) : bool :=
  match n !! "title", n !! "content" with
  | Some (VStr t), Some (VStr c) =>
      includes (toLowerCase t) (toLowerCase term)
      || includes (toLowerCase c) (toLowerCase term)
  | _, _ => false
  end.

Lemma search_hitb_spec (term : string) (n : note) :
  search_hitb term n = true ↔ search_hit term n.
Proof.
  unfold search_hitb, search_hit. split.
  - destruct (n !! "title") as [[| t |] |]; try done.
    destruct (n !! "content") as [[| c |] |]; try done.
    rewrite orb_true_iff, !includes_lower. eauto 6.
  - intros (t & c & -> & -> & Hhit).
    by rewrite orb_true_iff, !includes_lower.
Qed.

#[global] Instance search_hit_dec (term : string) (n : note) :
  Decision (search_hit term n).
Proof.
  destruct (search_hitb term n) eqn:Hb.
  - left. by apply search_hitb_spec.
  - right. intros Hhit. apply search_hitb_spec in Hhit. congruence.
Defined.



(** [getAll] lists the records of the store, all of them and no other. *)
Lemma elem_of_getAll (os : objectStore) (n : note) :
  n ∈ getAll os ↔ ∃ k, records os !! k = Some n.
Proof.
  unfold getAll. rewrite list_elem_of_fmap. split.
  - intros ([k n'] & -> & Hin). rewrite merge_sort_Permutation in Hin.
    apply elem_of_map_to_list in Hin. eauto.
  - intros [k Hk]. exists (k, n). split; [done |].
    rewrite merge_sort_Permutation. by apply elem_of_map_to_list.
Qed.


Lemma has_text_addNote (n : newNote) (t1 t2 : Z) (os : objectStore) :
  (∀ k m, records os !! k = Some m → has_text m) →
  ∀ k m, records (addNote (to_note n) t1 t2 os).2 !! k = Some m → has_text m.
Proof.
  intros Htext k m. unfold addNote, add, store_record. rewrite to_note_no_id.
  destruct (MAX_GENERATED_KEY <? keyGen os); [apply Htext |].
  destruct (_ && _)%bool; [apply Htext |]. simpl.
  destruct (decide (k = KNum (keyGen os))) as [-> | Hne].
  - rewrite lookup_insert_eq. intros [= <-].
    exists (title n), (content n). split; reflexivity.
  - rewrite lookup_insert_ne by done. apply Htext.
Qed.

Lemma has_text_init (k : key) (m : note) :
  records (init None) !! k = Some m → has_text m.
Proof. simpl. by rewrite lookup_empty. Qed.


(** The record of the specification is found by "grocery", "EGGS" and
    "list", and not by "bread". *)
Example search_grocery :
  searchNotes "grocery" one_note = Resolved (getAll one_note) ∧
  searchNotes "EGGS" one_note = Resolved (getAll one_note) ∧
  searchNotes "list" one_note = Resolved (getAll one_note) ∧
  searchNotes "bread" one_note = Resolved [] ∧
  length (getAll one_note) = 1%nat.
Proof. vm_compute. repeat split. Qed.

(** A capital letter outside ASCII: the title École, with É as the code
    unit 201, is found by the term école, with é as the code unit 233, and
    by COLE. *)
Example search_accented :
  let ecole := to_note {| title := String "201" "cole"; content := "";
                          color := "#f39c12" |} in
  let os := (addNote ecole 10 10 (init None)).2 in
  searchNotes (String "233" "cole") os = Resolved (getAll os) ∧
  searchNotes "COLE" os = Resolved (getAll os) ∧
  searchNotes (String "201" "coles") os = Resolved [] ∧
  length (getAll os) = 1%nat.
Proof. vm_compute. repeat split. Qed.

Lemma filter_notes_empty_term (l : list note) :
  Forall (λ n : note, ∃ t, n !! "title" = Some (VStr t)) l →
  filter_notes "" l = inr l.
Proof.
  induction 1 as [| n l [t Ht] _ IH]; [done |]. simpl.
  unfold note_matches. rewrite Ht, JsStringSpec.includes_nil. by rewrite IH.
Qed.

(** C10: on a collection whose records have a title, [searchNotes] with
    the empty term resolves with the whole collection, as [getAllNotes]
    does. *)
Theorem searchNotes_empty_term (os : objectStore) :
  (∀ k n, records os !! k = Some n → ∃ t, n !! "title" = Some (VStr t)) →
  searchNotes "" os = getAllNotes os ∧
  searchNotes "" os = Resolved (getAll os).
Proof.
  intros Htitle. unfold searchNotes, getAllNotes. simpl.
  rewrite filter_notes_empty_term; [done |].
  apply Forall_forall. intros n Hn. apply elem_of_getAll in Hn as [k Hk]. eauto.
Qed.

Lemma searchNotes_empty_term_witness :
  searchNotes "" one_note = getAllNotes one_note.
Proof.
  apply (searchNotes_empty_term one_note).
  intros k n Hn.
  destruct (has_text_addNote grocery 10 10 (init None) has_text_init k n Hn)
    as (t & _ & Ht & _).
  by exists t.
Defined.

End NotesDBSpec.

(** * The search over text of other scripts *)

Module Utf16Spec.
Import Utf16.

(** The record of a note with the title ΑΣ (U+0391 U+03A3) and no
    content, and the store that holds it under the id 1. *)
Definition sigma_note : note :=
  {[ "id" := VNum 1;
     "title" := VStr [0x391; 0x3A3]%N;
     "content" := VStr [];
     "color" := VStr (units "#f39c12");
     "createdAt" := VNum 10;
     "updatedAt" := VNum 10 ]}.



(** Inside a word the sigma is not a final one: in the title ΑΣΑ the
    term σ is found. *)
Example sigma_inside_found :
  toLowerCase [0x391; 0x3A3; 0x391]%N = Some [0x3B1; 0x3C3; 0x3B1]%N ∧
  note_matches [0x3C3]%N (<["title" := VStr [0x391; 0x3A3; 0x391]%N]> sigma_note)
  = Some (inr true) ∧
  note_matches [0x3C3]%N sigma_note = Some (inr false).
Proof. split; [| split]; vm_compute; reflexivity. Qed.

(** ** Agreement with the search over code units below 256 *)

Lemma units_cons (c : ascii) (s : string) :
  units (String c s) = N_of_ascii c :: units s.
Proof. reflexivity. Qed.

Lemma lower_unit_units (c : ascii) (before after : ustring) :
  (if (N_of_ascii c =? CAPITAL_SIGMA)%N
   then if final_sigma before after then SMALL_FINAL_SIGMA else SMALL_SIGMA
   else if capital (N_of_ascii c) then (N_of_ascii c + 32)%N
   else N_of_ascii c)
  = N_of_ascii (JsString.lower_unit c).
Proof. destruct c as [[] [] [] [] [] [] [] []]; reflexivity. Qed.

Lemma modelled_units (c : ascii) : modelled (N_of_ascii c) = true.
Proof. destruct c as [[] [] [] [] [] [] [] []]; reflexivity. Qed.

Lemma lower_from_units (s : string) : ∀ before,
  lower_from before (units s) = units (JsString.toLowerCase s).
Proof.
  induction s as [| c s IH]; intros before; [done |].
  rewrite units_cons. simpl. by rewrite lower_unit_units, IH.
Qed.

(** On a [string], the two models of [toLowerCase] agree. *)
Lemma toLowerCase_units (s : string) :
  toLowerCase (units s) = Some (units (JsString.toLowerCase s)).
Proof.
  unfold toLowerCase.
  assert (forallb modelled (units s) = true) as ->.
  { induction s as [| c s IH]; [done |].
    rewrite units_cons. simpl. by rewrite modelled_units, IH. }
  by rewrite lower_from_units.
Qed.

Lemma eqb_units (a b : ascii) :
  (N_of_ascii a =? N_of_ascii b)%N = Ascii.eqb a b.
Proof.
  destruct (Ascii.eqb_spec a b) as [-> | Hne].
  - apply N.eqb_refl.
  - apply N.eqb_neq. intros H. apply Hne.
    rewrite <- (ascii_N_embedding a), <- (ascii_N_embedding b). by rewrite H.
Qed.

Lemma startsWith_units (t : string) : ∀ s : string,
  startsWith (units s) (units t) = JsString.startsWith s t.
Proof.
  induction t as [| b t IH]; intros [| a s]; try done.
  rewrite !units_cons. simpl. by rewrite eqb_units, IH.
Qed.

Lemma includes_units (t s : string) :
  includes (units s) (units t) = JsString.includes s t.
Proof.
  induction s as [| a s IH]; rewrite JsStringSpec.includes_unfold.
  - rewrite <- startsWith_units. reflexivity.
  - rewrite <- startsWith_units, <- IH. reflexivity.
Qed.

(** On notes whose text is made of code units below 256, the callback of
    the filter and the filter are those of [NotesDB]. *)
Lemma note_matches_units (term : string) (n : NotesDB.note) :
  note_matches (units term) (widen_note n) = Some (NotesDB.note_matches term n).
Proof.
  unfold note_matches, NotesDB.note_matches, widen_note. rewrite !lookup_fmap.
  destruct (n !! "title") as [[| t |] |]; try done. simpl.
  rewrite toLowerCase_units. simpl. rewrite includes_units.
  destruct (JsString.includes (JsString.toLowerCase t) term); [done |].
  destruct (n !! "content") as [[| c |] |]; try done. simpl.
  rewrite toLowerCase_units. simpl. by rewrite includes_units.
Qed.

Lemma filter_notes_units (term : string) (l : list NotesDB.note) :
  filter_notes (units term) (widen_note <$> l)
  = Some (match NotesDB.filter_notes term l with
          | inl e => inl e
          | inr r => inr (widen_note <$> r)
          end).
Proof.
  induction l as [| n l IH]; [done |].
  rewrite fmap_cons. simpl. rewrite note_matches_units. simpl.
  destruct (NotesDB.note_matches term n) as [e | b]; [done |].
  rewrite IH. simpl.
  destruct (NotesDB.filter_notes term l) as [e | r]; [done |].
  by destruct b.
Qed.

Section merge_sort_fmap.

Context {A B : Type} (g : A → B).
Context (R : relation A) `{∀ x y, Decision (R x y)}.
Context (R' : relation B) `{∀ x y, Decision (R' x y)}.
Hypothesis R_g : ∀ x y, R' (g x) (g y) ↔ R x y.

Definition stack_fmap (st : list (option (list A))) : list (option (list B)) :=
  fmap (M := list) (fmap (M := option) (fmap (M := list) g)) st.

Lemma list_merge_fmap (l1 : list A) : ∀ l2 : list A,
  list_merge R' (g <$> l1) (g <$> l2) = g <$> list_merge R l1 l2.
Proof.
  induction l1 as [| x1 l1 IH1]; intros l2; [by destruct l2 |].
  induction l2 as [| x2 l2 IH2]; [done |].
  rewrite !fmap_cons. simpl.
  destruct (decide (R x1 x2)) as [Hr | Hr], (decide (R' (g x1) (g x2))) as [Hr' | Hr'].
  - rewrite fmap_cons. f_equal. by rewrite <- IH1.
  - by apply R_g in Hr.
  - by apply R_g in Hr'.
  - rewrite fmap_cons. f_equal. exact IH2.
Qed.

Lemma merge_list_to_stack_fmap (st : list (option (list A))) : ∀ l : list A,
  merge_list_to_stack R' (stack_fmap st) (g <$> l)
  = stack_fmap (merge_list_to_stack R st l).
Proof.
  induction st as [| [l' |] st IH]; intros l; simpl; [done | | done].
  by rewrite list_merge_fmap, IH.
Qed.

Lemma merge_stack_fmap (st : list (option (list A))) :
  merge_stack R' (stack_fmap st) = g <$> merge_stack R st.
Proof.
  induction st as [| [l |] st IH]; simpl; [done | | done].
  by rewrite IH, list_merge_fmap.
Qed.

Lemma merge_sort_aux_fmap (l : list A) : ∀ st : list (option (list A)),
  merge_sort_aux R' (stack_fmap st) (g <$> l)
  = g <$> merge_sort_aux R st l.
Proof.
  induction l as [| x l IH]; intros st; simpl; [apply merge_stack_fmap |].
  rewrite <- IH. f_equal.
  apply (merge_list_to_stack_fmap st [x]).
Qed.

(** Merge sort commutes with a map that keeps the order. *)
Lemma merge_sort_fmap (l : list A) :
  merge_sort R' (g <$> l) = g <$> merge_sort R l.
Proof. apply (merge_sort_aux_fmap l []). Qed.

End merge_sort_fmap.

(** [getAll] lists the same records in the same order. *)
Lemma getAll_widen (os : NotesDB.objectStore) :
  getAll (widen_store os) = widen_note <$> NotesDB.getAll os.
Proof.
  unfold getAll, NotesDB.getAll, widen_store. simpl.
  rewrite map_to_list_fmap.
  rewrite (merge_sort_fmap (prod_map id widen_note)
             (λ p q : NotesDB.key * NotesDB.note, NotesDB.key_leb p.1 q.1)).
  - rewrite <- !list_fmap_compose. apply list_fmap_ext. by intros ? [k n] ?.
  - by intros [k n] [k' n'].
Qed.

(** On a store whose text is made of code units below 256, the search
    over 16-bit code units is the search of [NotesDB]. *)
Lemma searchNotes_units (term : string) (os : NotesDB.objectStore) :
  searchNotes (units term) (widen_store os)
  = Some (widen_outcome (NotesDB.searchNotes term os)).
Proof.
  unfold searchNotes, NotesDB.searchNotes.
  rewrite getAll_widen, toLowerCase_units. simpl.
  rewrite filter_notes_units. simpl.
  by destruct (NotesDB.filter_notes _ _).
Qed.

End Utf16Spec.

(** * Properties of the cache lifecycle manager *)

Module ServiceWorkerSpec.
Import JsString ServiceWorker.

Ltac unfold_M :=
  unfold mbind, M_bind, mret, M_ret, throw, catch, fire_and_forget,
    get_caches, set_caches, emit, alloc, deref, consume in *.

Lemma lookup_fresh {A} (l : list A) (x : A) : (l ++ [x]) !! length l = Some x.
Proof. by apply list_lookup_middle. Qed.

(** ** The Cache Storage *)




Section Worker.

Variable location_origin : string.

(** ** Cache first *)

Lemma respond_hit (net : network) (req : Request) (s : state) (r : Response) :
  cache_lookup (method req) (href (url req)) (caches s) = Some r →
  respond location_origin net req s
  = (Ok (Some (length (heap s))),
     {| caches := caches s;
        heap := heap s ++ [{| content := r; bodyUsed := false |}];
        log := log s;
        skipWaitingCalled := skipWaitingCalled s;
        clientsClaimed := clientsClaimed s |}).
Proof.
  intros Hhit. unfold respond, caches_match. unfold_M. simpl. by rewrite Hhit.
Qed.



(** ** Installation *)

Lemma fetch_all_spec (net : network) (urls : list string) : ∀ s : state,
  ∃ res,
    fetch_all location_origin net urls s
    = (res, logged (map (λ u, EvFetch "GET" (resolve location_origin u)) urls) s) ∧
    (Exists (asset_fails location_origin net) urls → res = Throw TypeError) ∧
    (∀ e, res = Throw e → e = TypeError).
Proof.
  induction urls as [| u urls IH]; intros s.
  - exists (Ok []). simpl. unfold mret, M_ret, logged. rewrite app_nil_r.
    split; [by destruct s |]. split; [by inversion 1 | done].
  - destruct (IH (logged [EvFetch "GET" (resolve location_origin u)] s))
      as (res & Hrun & Hfail & Hexn).
    assert (Hlog : logged (map (λ u, EvFetch "GET" (resolve location_origin u)) urls)
                     (logged [EvFetch "GET" (resolve location_origin u)] s)
                   = logged (map (λ u, EvFetch "GET" (resolve location_origin u))
                               (u :: urls)) s).
    { unfold logged. simpl. by rewrite <- app_assoc. }
    rewrite Hlog in Hrun.
    simpl. unfold_M. fold (logged [EvFetch "GET" (resolve location_origin u)] s).
    rewrite Hrun. unfold asset_fails in *.
    destruct res as [rest | e].
    + destruct (net "GET" (resolve location_origin u)) as [r |] eqn:Hnet.
      * destruct (addable r) eqn:Hok.
        -- eexists. split; [reflexivity |]. split; [| done].
           intros Hex. apply Exists_cons in Hex as [Hu | Hex].
           ++ rewrite Hnet in Hu. unfold addable in Hok. rewrite Hu in Hok. done.
           ++ by specialize (Hfail Hex).
        -- eexists. split; [reflexivity |]. split; [done | by intros e [= <-]].
      * eexists. split; [reflexivity |]. split; [done | by intros e [= <-]].
    + rewrite (Hexn e eq_refl).
      eexists. split; [reflexivity |]. split; [done | by intros e' [= <-]].
Qed.

Lemma storage_open_entries (name h : string) (r : Response)
    (cs : list (string * cache)) :
  snapshot_of h (storage_open name cs) r → snapshot_of h cs r.
Proof.
  unfold storage_open. destruct (has_cache name cs); [done |].
  intros (n & c & Hin & Hc). apply elem_of_app in Hin as [Hin | Hin].
  - by exists n, c.
  - apply list_elem_of_singleton in Hin as [= -> ->]. by rewrite lookup_empty in Hc.
Qed.

(** C7, amended: [cache.addAll] stores the manifest as one unit.  When
    the fetch of some asset fails, every asset has been requested once,
    no response is stored (the static partition exists, with the
    entries it had), [skipWaiting] is not called, and the handler
    catches and logs the error: the promise given to [waitUntil] is
    fulfilled, so the installation is not aborted and the runtime is
    not told of the failure. *)
Theorem install_failure_caught (net : network) (s : state) :
  Exists (asset_fails location_origin net) STATIC_ASSETS →
  ∃ s',
    install_handler location_origin net s = (Ok tt, s') ∧
    install location_origin net s = (Installed, s') ∧
    caches s' = storage_open CACHE_NAME (caches s) ∧
    (∀ h r, snapshot_of h (caches s') r → snapshot_of h (caches s) r) ∧
    skipWaitingCalled s' = skipWaitingCalled s ∧
    log s' = log s
             ++ map (λ u, EvFetch "GET" (resolve location_origin u)) STATIC_ASSETS
             ++ [EvConsoleError].
Proof.
  intros Hfails.
  unfold install, install_handler, caches_open, cache_addAll. unfold_M.
  cbn [caches heap log skipWaitingCalled clientsClaimed].
  match goal with
  | |- context [fetch_all _ _ _ ?st] =>
      destruct (fetch_all_spec net STATIC_ASSETS st) as (res & Hrun & Hfail & _)
  end.
  rewrite Hrun, (Hfail Hfails). cbn [logged caches heap log skipWaitingCalled clientsClaimed].
  eexists. split; [reflexivity |]. split; [reflexivity |].
  cbn [caches heap log skipWaitingCalled clientsClaimed].
  split; [done |]. split; [by intros h r; apply storage_open_entries |].
  split; [done |]. by rewrite <- app_assoc.
Qed.

(** ** Network failure *)


(** ** Insertion into the dynamic partition *)

Lemma storage_insert_entries (name h : string) (r : Response)
    (cs : list (string * cache)) (n h' : string) (c : cache) (r' : Response) :
  (n, c) ∈ storage_insert name h r cs → c !! h' = Some r' →
  snapshot_of h' cs r' ∨ (n = name ∧ h' = h ∧ r' = r).
Proof.
  induction cs as [| [n0 c0] cs IH]; simpl; [by inversion 1 |].
  destruct (String.eqb_spec n0 name) as [-> | Hne].
  - intros Hin Hc. apply elem_of_cons in Hin as [[= -> ->] | Hin].
    + destruct (decide (h' = h)) as [-> | Hh].
      * rewrite lookup_insert_eq in Hc. injection Hc as <-. by right.
      * rewrite lookup_insert_ne in Hc by done.
        left. exists name, c0. split; [left | done].
    + left. exists n, c. split; [by right | done].
  - intros Hin Hc. apply elem_of_cons in Hin as [[= -> ->] | Hin].
    + left. exists n0, c0. split; [left | done].
    + destruct (IH Hin Hc) as [(n1 & c1 & Hin1 & Hc1) | Hnew]; [| by right].
      left. exists n1, c1. split; [by right | done].
Qed.

(** The end of the proof below when [cache.put] rejects: the clone is
    left unread and no partition gets a new entry. *)
Ltac put_refused s r :=
  let Hl := fresh "Hl" in
  eexists _, _; split; [reflexivity |];
  cbn [caches heap log skipWaitingCalled clientsClaimed];
  assert (Hl : ((heap s ++ [{| content := r; bodyUsed := false |}])
                  ++ [{| content := r; bodyUsed := false |}])
               !! length (heap s)
               = Some {| content := r; bodyUsed := false |})
    by (rewrite lookup_app_l by (rewrite length_app; simpl; lia);
        apply lookup_fresh);
  split; [exact Hl |];
  unfold deliver, consume; cbn [caches heap log skipWaitingCalled clientsClaimed];
  rewrite Hl; cbn [content bodyUsed fst snd caches];
  split; [done |]; split; [done |]; split; [congruence |]; split;
  [ intros name c h' r' Hin Hc; left;
    apply (storage_open_entries DYNAMIC_CACHE); by exists name, c
  | intros name h' l'; rewrite drop_app_length;
    intros Hin; by apply list_elem_of_singleton in Hin ].

(** C9: a cache miss that the network answers.  The response goes to
    the caller whole.  When its status is not a successful one the
    partitions stay as they were; whatever the partitions hold
    afterwards they held before, except for this response, kept by the
    dynamic partition under the URL of the request, and then its status
    is successful.  The object that [cache.put] reads is not the one
    delivered, and reading the delivered one changes no partition. *)
Theorem dynamic_insert_ok_only (net : network) (req : Request) (s : state)
    (r : Response) :
  intercepts location_origin req = true →
  cache_lookup (method req) (href (url req)) (caches s) = None →
  net (method req) (href (url req)) = Some r →
  ∃ l s',
    fetch_handler location_origin net req s = (RespondWith (Ok (Some l)), s') ∧
    heap s' !! l = Some {| content := r; bodyUsed := false |} ∧
    (deliver (Ok (Some l)) s').1 = Some r ∧
    caches (deliver (Ok (Some l)) s').2 = caches s' ∧
    (ok_status (status r) = false → caches s' = caches s) ∧
    (∀ name c h' r', (name, c) ∈ caches s' → c !! h' = Some r' →
       snapshot_of h' (caches s) r' ∨
       (name = DYNAMIC_CACHE ∧ h' = href (url req) ∧ r' = r ∧
        ok_status (status r) = true)) ∧
    (∀ name h' l', EvPut name h' l' ∈ drop (length (log s)) (log s') →
       l' ≠ l ∧ heap s' !! l' = Some {| content := r; bodyUsed := true |}).
Proof.
  intros Hint Hmiss Hnet.
  unfold fetch_handler. rewrite Hint.
  unfold respond, caches_match, fetch, clone, caches_open, cache_put. unfold_M.
  cbn [caches heap log skipWaitingCalled clientsClaimed].
  rewrite Hmiss, Hnet.
  cbn [caches heap log skipWaitingCalled clientsClaimed].
  rewrite lookup_fresh. cbn [content bodyUsed].
  destruct (Z.eqb_spec (status r) 200) as [H200 | H200].
  - (* status 200: the clone is handed to cache.put *)
    cbn [caches heap log skipWaitingCalled clientsClaimed].
    rewrite lookup_fresh. cbn [content bodyUsed].
    cbn [caches heap log skipWaitingCalled clientsClaimed].
    rewrite lookup_fresh. cbn [content bodyUsed].
    assert (Hok : ok_status (status r) = true) by (by rewrite H200).
    assert (H206 : (status r =? 206) = false) by (by rewrite H200).
    rewrite H206.
    destruct (String.eqb_spec (method req) "GET") as [Hget | Hget]; cbn [negb];
      [destruct (http_scheme (href (url req))) eqn:Hhttp; cbn [negb];
       [destruct (varies_on_all r) eqn:Hvary |] |].
    + (* the response varies on every header: cache.put rejects *)
      put_refused s r.
    + cbn [caches heap log skipWaitingCalled clientsClaimed].
      rewrite lookup_fresh. cbn [content bodyUsed].
      eexists _, _. split; [reflexivity |].
      cbn [caches heap log skipWaitingCalled clientsClaimed].
      assert (Hl : (<[length (heap s ++ [{| content := r; bodyUsed := false |}])
                      := {| content := r; bodyUsed := true |}]>
                      ((heap s ++ [{| content := r; bodyUsed := false |}])
                         ++ [{| content := r; bodyUsed := false |}]))
                   !! length (heap s)
                   = Some {| content := r; bodyUsed := false |}).
      { rewrite list_lookup_insert_ne by (rewrite length_app; simpl; lia).
        rewrite lookup_app_l by (rewrite length_app; simpl; lia).
        apply lookup_fresh. }
      split; [exact Hl |].
      unfold deliver, consume. cbn [caches heap log skipWaitingCalled clientsClaimed].
      rewrite Hl. cbn [content bodyUsed fst snd caches].
      split; [done |]. split; [done |]. split; [congruence |]. split.
      * intros name c h' r' Hin Hc.
        destruct (storage_insert_entries _ _ _ _ _ _ _ _ Hin Hc)
          as [Hold | (-> & -> & ->)]; [| by right].
        left. by apply (storage_open_entries DYNAMIC_CACHE).
      * intros name h' l'. rewrite <- app_assoc, drop_app_length.
        intros Hin. apply elem_of_cons in Hin as [[=] | Hin].
        apply list_elem_of_singleton in Hin as [= -> -> ->].
        split; [rewrite length_app; simpl; lia |].
        rewrite list_lookup_insert_eq by (rewrite !length_app; simpl; lia).
        done.
    + (* not an http URL: cache.put rejects *)
      put_refused s r.
    + (* not a GET request: cache.put rejects, and nobody listens *)
      put_refused s r.
  - (* any other status: the response is returned and nothing else *)
    eexists _, _. split; [reflexivity |].
    cbn [caches heap log skipWaitingCalled clientsClaimed].
    split; [apply lookup_fresh |].
    unfold deliver, consume. cbn [caches heap log skipWaitingCalled clientsClaimed].
    rewrite lookup_fresh. cbn [content bodyUsed fst snd caches].
    split; [done |]. split; [done |]. split; [done |]. split.
    + intros name c h' r' Hin Hc. left. by exists name, c.
    + intros name h' l'. rewrite drop_app_length.
      intros Hin. by apply list_elem_of_singleton in Hin.
Qed.

End Worker.






Definition stylesheet : Request :=
  {| method := "GET";
     url := {| origin := app_origin; path := "/styles.css" |};
     destination := "style" |}.

Lemma dynamic_insert_ok_only_witness :
  ∃ l s',
    fetch_handler app_origin online stylesheet installed
      = (RespondWith (Ok (Some l)), s') ∧
    (deliver (Ok (Some l)) s').1
      = Some {| status := 200; body := "https://notes.example/styles.css";
                vary := [] |}.
Proof.
  destruct (dynamic_insert_ok_only app_origin online stylesheet installed
              {| status := 200; body := "https://notes.example/styles.css";
                 vary := [] |})
    as (l & s' & Hrun & _ & Hpage & _).
  - reflexivity.
  - reflexivity.
  - reflexivity.
  - by exists l, s'.
Defined.

(** After that request the stylesheet is in the dynamic partition, and a
    response with status 404 is not. *)
Example stylesheet_cached :
  storage_match (caches (fetch_handler app_origin online stylesheet installed).2)
    (href (url stylesheet))
  = Some {| status := 200; body := "https://notes.example/styles.css";
            vary := [] |} ∧
  caches (fetch_handler app_origin
            (λ _ _, Some {| status := 404; body := ""; vary := [] |})
            stylesheet installed).2
  = caches installed.
Proof. split; reflexivity. Qed.

(** ** Requests to other origins *)

(** A request to another origin whose URL does not hold the text
    "unpkg.com" is left to the platform. *)
Lemma foreign_not_intercepted (location_origin : string) (net : network)
    (req : Request) (s : state) :
  origin (url req) ≠ location_origin →
  includes (href (url req)) "unpkg.com" = false →
  fetch_handler location_origin net req s = (NotIntercepted, s).
Proof.
  intros Horigin Hhref. unfold fetch_handler, intercepts. rewrite Hhref.
  destruct (String.eqb_spec (origin (url req)) location_origin); done.
Qed.

Definition external_api : Request :=
  {| method := "GET";
     url := {| origin := "https://api.example.com";
               path := "/v1/packages?registry=unpkg.com" |};
     destination := "" |}.

(** C8 does not hold of the handler: the allow-list is a test for the
    text "unpkg.com" anywhere in the URL.  A request to the origin
    https://api.example.com, which is neither the application's nor
    https://unpkg.com, is intercepted when its query holds that text:
    the caches are searched, the network is asked by the worker, and the
    response is put into the dynamic partition. *)
Theorem external_api_intercepted :
  origin (url external_api) ≠ app_origin ∧
  origin (url external_api) ≠ "https://unpkg.com" ∧
  ∃ l s',
    fetch_handler app_origin online external_api installed
      = (RespondWith (Ok (Some l)), s') ∧
    log s' = log installed
             ++ [EvFetch "GET" (href (url external_api));
                 EvPut DYNAMIC_CACHE (href (url external_api)) (S l)] ∧
    is_Some (storage_match (caches s') (href (url external_api))) ∧
    storage_match (caches installed) (href (url external_api)) = None.
Proof.
  split; [discriminate |]. split; [discriminate |].
  eexists _, _. split; [vm_compute; reflexivity |].
  split; [reflexivity |]. split; [vm_compute; eauto | reflexivity].
Qed.

(** C7, as stated, fails: with the network down no asset can be fetched,
    yet the promise of the install handler is fulfilled and the worker is
    installed, not discarded. *)
Lemma install_offline_not_aborted :
  Exists (asset_fails app_origin offline) STATIC_ASSETS ∧
  (install_handler app_origin offline initial).1 = Ok tt ∧
  (install app_origin offline initial).1 = Installed ∧
  (install app_origin offline initial).1 ≠ Redundant.
Proof.
  split; [by left |]. split; [reflexivity |]. split; [reflexivity | discriminate].
Qed.

Lemma install_failure_caught_witness :
  ∃ s', install app_origin offline initial = (Installed, s') ∧
        caches s' = [(CACHE_NAME, ∅)] ∧
        skipWaitingCalled s' = false.
Proof.
  destruct (install_failure_caught app_origin offline initial)
    as (s' & _ & Hrun & Hcaches & _ & Hskip & _).
  - by left.
  - exists s'. split; [exact Hrun |]. split; [exact Hcaches | exact Hskip].
Defined.

(** With the network up the manifest is stored and [skipWaiting] is
    called. *)
Example install_online :
  Forall (λ u, is_Some (storage_match (caches installed) (resolve app_origin u)))
    STATIC_ASSETS ∧
  (caches installed).*1 = [CACHE_NAME] ∧
  skipWaitingCalled installed = true.
Proof.
  split; [| split; reflexivity].
  repeat constructor; vm_compute; eauto.
Qed.

End ServiceWorkerSpec.

(** * Further properties of the record store *)

Module NotesDBOpsSpec.
Import JsString NotesDB NotesDBOps.

(** ** The key generator *)

Lemma update_keyGen_mono (k : key) (gen : Z) : gen ≤ update_keyGen k gen.
Proof.
  destruct k as [v | s]; simpl; [| lia].
  destruct (Z.leb_spec gen (Z.min v MAX_GENERATED_KEY)); lia.
Qed.

Lemma update_keyGen_past (i gen : Z) :
  i < update_keyGen (KNum i) gen ∨ MAX_GENERATED_KEY < update_keyGen (KNum i) gen.
Proof.
  simpl. destruct (Z.leb_spec gen (Z.min i MAX_GENERATED_KEY)); lia.
Qed.

Lemma update_keyGen_idem (k : key) (gen : Z) :
  update_keyGen k (update_keyGen k gen) = update_keyGen k gen.
Proof.
  destruct k as [v | s]; simpl; [| done].
  destruct (Z.leb_spec gen (Z.min v MAX_GENERATED_KEY)) as [Hle | Hgt].
  - destruct (Z.leb_spec (Z.min v MAX_GENERATED_KEY + 1) (Z.min v MAX_GENERATED_KEY)); lia.
  - destruct (Z.leb_spec gen (Z.min v MAX_GENERATED_KEY)); lia.
Qed.

Lemma store_record_generator_ahead (b : bool) (n : note) (os os' : objectStore)
    (k : key) :
  generator_ahead os → store_record b n os = inr (k, os') → generator_ahead os'.
Proof.
  intros Hgen. unfold store_record.
  destruct (extract_key n) as [| | k0]; [| done |].
  - destruct (Z.ltb_spec MAX_GENERATED_KEY (keyGen os)) as [| Hmax]; [done |].
    destruct (_ && _)%bool; [done |].
    intros [= <- <-] i. simpl.
    destruct (decide (i = keyGen os)) as [-> | Hne]; [intros _; lia |].
    rewrite lookup_insert_ne by congruence. intros Hi.
    destruct (Hgen i Hi); lia.
  - destruct (_ && _)%bool; [done |].
    intros [= <- <-] i. simpl.
    destruct (decide (k0 = KNum i)) as [-> | Hne].
    + intros _. apply update_keyGen_past.
    + rewrite lookup_insert_ne by done. intros Hi.
      pose proof (update_keyGen_mono k0 (keyGen os)).
      destruct (Hgen i Hi); lia.
Qed.

Lemma store_record_stamped (b : bool) (n : note) (os os' : objectStore) (k : key) :
  (∃ u, n !! "updatedAt" = Some (VNum u)) →
  stamped os → store_record b n os = inr (k, os') → stamped os'.
Proof.
  intros [u Hu] Hst. unfold store_record.
  destruct (extract_key n) as [| | k0]; [| done |].
  - destruct (MAX_GENERATED_KEY <? keyGen os); [done |].
    destruct (_ && _)%bool; [done |].
    intros [= <- <-] k' n'. simpl.
    destruct (decide (k' = KNum (keyGen os))) as [-> | Hne].
    + rewrite lookup_insert_eq. intros [= <-]. exists u.
      by rewrite lookup_insert_ne.
    + rewrite lookup_insert_ne by done. apply Hst.
  - destruct (_ && _)%bool; [done |].
    intros [= <- <-] k' n'. simpl.
    destruct (decide (k' = k0)) as [-> | Hne].
    + rewrite lookup_insert_eq. intros [= <-]. eauto.
    + rewrite lookup_insert_ne by done. apply Hst.
Qed.

Lemma step_invariants (c : call) (os : objectStore) :
  store_wf os ∧ stamped os ∧ generator_ahead os →
  store_wf (step c os) ∧ stamped (step c os) ∧ generator_ahead (step c os).
Proof.
  intros (Hwf & Hst & Hgen). destruct c as [n t1 t2 | id updates t | id]; simpl.
  - split; [by apply NotesDBSpec.store_wf_addNote |].
    unfold addNote, add.
    destruct (store_record _ _ _) as [e | [k os']] eqn:Hrec; [done |]. simpl. split.
    + eapply store_record_stamped; [| done | exact Hrec].
      exists t2. by rewrite lookup_insert_eq.
    + eapply store_record_generator_ahead; eauto.
  - split; [by apply NotesDBSpec.store_wf_updateNote |].
    unfold updateNote, put. destruct (records os !! id) as [n |]; [| done].
    destruct (store_record _ _ _) as [e | [k os']] eqn:Hrec; [by destruct e |].
    simpl. split.
    + eapply store_record_stamped; [| done | exact Hrec].
      exists t. by rewrite lookup_insert_eq.
    + eapply store_record_generator_ahead; eauto.
  - split; [by apply NotesDBSpec.store_wf_deleteNote |]. split.
    + intros k n Hk. simpl in Hk. apply lookup_delete_Some in Hk as [_ Hk]. eauto.
    + intros i [n Hi]. simpl in *. apply lookup_delete_Some in Hi as [_ Hi].
      apply Hgen. eauto.
Qed.

Lemma init_invariants :
  store_wf (init None) ∧ stamped (init None) ∧ generator_ahead (init None).
Proof.
  split; [apply NotesDBSpec.store_wf_init |].
  split; [intros k n | intros i [n Hn]; revert Hn]; simpl; by rewrite lookup_empty.
Qed.

Lemma one_note_invariants :
  store_wf NotesDBSpec.one_note ∧ stamped NotesDBSpec.one_note ∧
  generator_ahead NotesDBSpec.one_note.
Proof.
  apply (step_invariants (CallAdd (to_note NotesDBSpec.grocery) 10 10) (init None)),
    init_invariants.
Qed.

(** X1: whatever is added, updated and deleted, with whatever fields, every
    record of the store is kept under the key that its [id] field holds
    and carries a numeric [updatedAt], and the key generator is past every
    numeric key in use unless it is exhausted. *)
Theorem store_invariants (cs : list call) :
  store_wf (exec cs (init None)) ∧
  stamped (exec cs (init None)) ∧
  generator_ahead (exec cs (init None)).
Proof.
  unfold exec. induction cs as [| c cs IH] using rev_ind.
  - apply init_invariants.
  - rewrite foldl_app. simpl. by apply step_invariants.
Qed.

(** ** Adding *)

(** X2: on a store whose key generator is ahead and not exhausted, adding
    a note that has no [id] resolves with the current number of the
    generator.  That key was free; the record kept under it has the
    fields of the note, the two clock readings and the new id; every other
    record is as before. *)
Theorem addNote_without_id (n : note) (t1 t2 : Z) (os : objectStore) :
  n !! "id" = None →
  generator_ahead os →
  keyGen os ≤ MAX_GENERATED_KEY →
  ∃ os' stored,
    addNote n t1 t2 os = (Resolved (KNum (keyGen os)), os') ∧
    records os !! KNum (keyGen os) = None ∧
    records os' !! KNum (keyGen os) = Some stored ∧
    stored ∈ getAll os' ∧
    stored !! "id" = Some (VNum (keyGen os)) ∧
    stored !! "createdAt" = Some (VNum t1) ∧
    stored !! "updatedAt" = Some (VNum t2) ∧
    (∀ f, f ≠ "id" → f ≠ "createdAt" → f ≠ "updatedAt" → stored !! f = n !! f) ∧
    (∀ k, k ≠ KNum (keyGen os) → records os' !! k = records os !! k) ∧
    keyGen os' = keyGen os + 1.
Proof.
  intros Hid Hgen Hmax.
  assert (Hfree : records os !! KNum (keyGen os) = None).
  { destruct (records os !! KNum (keyGen os)) as [m |] eqn:Hm; [| done].
    destruct (Hgen (keyGen os)) as [? | ?]; [by eexists | lia | lia]. }
  unfold addNote, add, store_record, extract_key.
  rewrite !lookup_insert_ne by done. rewrite Hid.
  destruct (Z.ltb_spec MAX_GENERATED_KEY (keyGen os)) as [? | _]; [lia |].
  rewrite Hfree. simpl.
  eexists _, _. split; [reflexivity |]. simpl.
  split; [done |]. split; [by rewrite lookup_insert_eq |].
  split; [apply NotesDBSpec.elem_of_getAll; exists (KNum (keyGen os)); simpl;
          by rewrite lookup_insert_eq |].
  split; [by rewrite lookup_insert_eq |].
  split; [by rewrite lookup_insert_ne, lookup_insert_ne, lookup_insert_eq |].
  split; [by rewrite lookup_insert_ne, lookup_insert_eq |].
  split; [by intros f ???; rewrite !lookup_insert_ne |].
  split; [by intros k ?; rewrite lookup_insert_ne |]. done.
Qed.

Lemma addNote_without_id_witness :
  ∃ os', addNote (to_note NotesDBSpec.grocery) 30 31 NotesDBSpec.one_note
         = (Resolved (KNum 2), os').
Proof.
  destruct (addNote_without_id (to_note NotesDBSpec.grocery) 30 31 NotesDBSpec.one_note)
    as (os' & stored & Hrun & _).
  - reflexivity.
  - apply one_note_invariants.
  - vm_compute. discriminate.
  - by exists os'.
Defined.

(** X3: a note that brings its own [id] is stored under that id when the
    id is free, and the key generator does not go back; when a record has
    that id the add is rejected with a [ConstraintError], and when the id
    is a boolean with a [DataError]; in both cases the store is as it
    was. *)
Theorem addNote_with_id (n : note) (v : value) (t1 t2 : Z) (os : objectStore) :
  n !! "id" = Some v →
  match key_of_value v with
  | None => addNote n t1 t2 os = (Rejected DataError, os)
  | Some k =>
      match records os !! k with
      | Some _ => addNote n t1 t2 os = (Rejected ConstraintError, os)
      | None =>
          ∃ os', addNote n t1 t2 os = (Resolved k, os') ∧
                 records os' !! k
                 = Some (<["updatedAt" := VNum t2]> (<["createdAt" := VNum t1]> n)) ∧
                 (∀ k', k' ≠ k → records os' !! k' = records os !! k') ∧
                 keyGen os ≤ keyGen os'
      end
  end.
Proof.
  intros Hid. unfold addNote, add, store_record, extract_key.
  rewrite !lookup_insert_ne by done. rewrite Hid.
  destruct (key_of_value v) as [k |]; [| done].
  destruct (records os !! k) as [m |] eqn:Hk.
  - by rewrite bool_decide_eq_true_2 by eauto.
  - rewrite bool_decide_eq_false_2 by (by intros [? ?]). simpl.
    eexists. split; [reflexivity |]. simpl.
    split; [by rewrite lookup_insert_eq |].
    split; [by intros k' ?; rewrite lookup_insert_ne |].
    apply update_keyGen_mono.
Qed.

Lemma addNote_with_id_witness :
  addNote (<["id" := VNum 1]> (to_note NotesDBSpec.grocery)) 30 31 NotesDBSpec.one_note
  = (Rejected ConstraintError, NotesDBSpec.one_note).
Proof.
  exact (addNote_with_id (<["id" := VNum 1]> (to_note NotesDBSpec.grocery)) (VNum 1)
           30 31 NotesDBSpec.one_note eq_refl).
Defined.

(** ** Deleting *)

(** X4: [deleteNote] always resolves.  The record of that id is gone, so
    that an update of it is rejected; every other record and the key
    generator are as before; on an id that the store does not hold, a
    second time for instance, the store is unchanged. *)
Theorem deleteNote_removes (id : key) (os : objectStore) :
  (deleteNote id os).1 = Resolved tt ∧
  records (deleteNote id os).2 !! id = None ∧
  (∀ k, k ≠ id → records (deleteNote id os).2 !! k = records os !! k) ∧
  (∀ n, n ∈ getAll (deleteNote id os).2 ↔
        ∃ k, k ≠ id ∧ records os !! k = Some n) ∧
  keyGen (deleteNote id os).2 = keyGen os ∧
  (records os !! id = None → (deleteNote id os).2 = os) ∧
  (deleteNote id (deleteNote id os).2).2 = (deleteNote id os).2 ∧
  (∀ updates t, (updateNote id updates t (deleteNote id os).2).1
                = Rejected NoteNonTrouvee).
Proof.
  simpl. split; [done |]. split; [apply lookup_delete_eq |].
  split; [by intros k ?; rewrite lookup_delete_ne |].
  split.
  { intros n. rewrite NotesDBSpec.elem_of_getAll. simpl.
    split; intros [k Hk]; exists k.
    - apply lookup_delete_Some in Hk as [Hne Hk]. by split; [intros -> |].
    - destruct Hk as [Hne Hk]. apply lookup_delete_Some. by split; [intros -> |]. }
  split; [done |].
  split; [intros Habs; destruct os; simpl in *; by rewrite delete_id |].
  split; [by rewrite delete_delete_eq |].
  intros updates t. unfold updateNote. simpl. by rewrite lookup_delete_eq.
Qed.

(** ** Updating *)

Lemma updateNote_same_id (id : key) (updates n : note) (t : Z) (os : objectStore) :
  store_wf os → records os !! id = Some n → updates !! "id" = None →
  updateNote id updates t os
  = (Resolved (<["updatedAt" := VNum t]> (updates ∪ n)),
     {| records := <[id := <["updatedAt" := VNum t]> (updates ∪ n)]> (records os);
        keyGen := update_keyGen id (keyGen os) |}).
Proof.
  intros Hwf Hn Hid.
  assert (Hkey : (<["updatedAt" := VNum t]> (updates ∪ n) : note) !! "id"
                 = Some (value_of_key id)).
  { rewrite lookup_insert_ne by done. rewrite lookup_union_r by done. by apply Hwf. }
  unfold updateNote, put, store_record. rewrite Hn.
  apply NotesDBSpec.extract_key_inline in Hkey. by rewrite Hkey.
Qed.

(** X5: for changes without an [id], the record that [updateNote]
    resolves with is the one that the store then holds and that [getAll]
    lists; a field that the changes name has the value they give, any
    other field but [updatedAt] has the value it had, and [updatedAt] is
    the clock reading even when the changes name it. *)
Theorem updateNote_fields (id : key) (updates n : note) (t : Z) (os : objectStore) :
  store_wf os →
  records os !! id = Some n →
  updates !! "id" = None →
  ∃ n' os',
    updateNote id updates t os = (Resolved n', os') ∧
    records os' !! id = Some n' ∧
    n' ∈ getAll os' ∧
    n' !! "updatedAt" = Some (VNum t) ∧
    (∀ f v, f ≠ "updatedAt" → updates !! f = Some v → n' !! f = Some v) ∧
    (∀ f, f ≠ "updatedAt" → updates !! f = None → n' !! f = n !! f).
Proof.
  intros Hwf Hn Hid. rewrite (updateNote_same_id id updates n t os Hwf Hn Hid).
  eexists _, _. split; [reflexivity |]. simpl.
  split; [by rewrite lookup_insert_eq |].
  split; [apply NotesDBSpec.elem_of_getAll; exists id; simpl;
          by rewrite lookup_insert_eq |].
  split; [by rewrite lookup_insert_eq |]. split.
  - intros f v Hf Hv. rewrite lookup_insert_ne by done.
    by apply lookup_union_Some_l.
  - intros f Hf Hv. rewrite lookup_insert_ne by done. by apply lookup_union_r.
Qed.

Lemma updateNote_fields_witness :
  ∃ n' os',
    updateNote (KNum 1) {[ "updatedAt" := VNum 0; "color" := VStr "blue" ]} 20
      NotesDBSpec.one_note = (Resolved n', os') ∧
    n' !! "updatedAt" = Some (VNum 20) ∧
    n' !! "color" = Some (VStr "blue").
Proof.
  destruct (updateNote_fields (KNum 1)
              {[ "updatedAt" := VNum 0; "color" := VStr "blue" ]}
              (<["id" := VNum 1]>
                 (<["updatedAt" := VNum 10]>
                    (<["createdAt" := VNum 10]> (to_note NotesDBSpec.grocery))))
              20 NotesDBSpec.one_note)
    as (n' & os' & Hrun & _ & _ & Hup & Hnew & _).
  - apply one_note_invariants.
  - reflexivity.
  - reflexivity.
  - exists n', os'. split; [exact Hrun |]. split; [exact Hup |].
    by apply Hnew.
Defined.

(** X6: two updates of a record in a row, with changes that have no [id],
    come to one update with the later changes laid over the earlier ones,
    at the later clock reading: the same record is resolved and the same
    store results. *)
Theorem updateNote_twice (id : key) (u1 u2 n : note) (t1 t2 : Z) (os : objectStore) :
  store_wf os →
  records os !! id = Some n →
  u1 !! "id" = None →
  u2 !! "id" = None →
  updateNote id u2 t2 (updateNote id u1 t1 os).2 = updateNote id (u2 ∪ u1) t2 os.
Proof.
  intros Hwf Hn H1 H2.
  pose proof (NotesDBSpec.store_wf_updateNote id u1 t1 os Hwf) as Hwf'.
  rewrite (updateNote_same_id id u1 n t1 os Hwf Hn H1) in *. simpl in *.
  erewrite (updateNote_same_id id u2 _ t2 _ Hwf'); [| by simpl; rewrite lookup_insert_eq | done].
  rewrite (updateNote_same_id id (u2 ∪ u1) n t2 os Hwf Hn)
    by (by rewrite lookup_union_r).
  simpl. rewrite insert_insert_eq, update_keyGen_idem.
  assert (Hmerge : (<["updatedAt" := VNum t2]> (u2 ∪ <["updatedAt" := VNum t1]> (u1 ∪ n)) : note)
                   = <["updatedAt" := VNum t2]> (u2 ∪ u1 ∪ n)).
  { apply map_eq. intros f. destruct (decide (f = "updatedAt")) as [-> | Hf].
    - by rewrite !lookup_insert_eq.
    - rewrite !lookup_insert_ne by done. rewrite <- (assoc_L (∪)).
      rewrite !lookup_union, !lookup_insert_ne by done. by rewrite lookup_union. }
  by rewrite Hmerge.
Qed.

Lemma updateNote_twice_witness :
  updateNote (KNum 1) {[ "title" := VStr "b" ]} 30
    (updateNote (KNum 1) {[ "title" := VStr "a"; "color" := VStr "red" ]} 20
       NotesDBSpec.one_note).2
  = updateNote (KNum 1)
      ({[ "title" := VStr "b" ]} ∪ {[ "title" := VStr "a"; "color" := VStr "red" ]})
      30 NotesDBSpec.one_note.
Proof.
  apply (updateNote_twice (KNum 1) _ _
           (<["id" := VNum 1]>
              (<["updatedAt" := VNum 10]>
                 (<["createdAt" := VNum 10]> (to_note NotesDBSpec.grocery))))).
  - apply one_note_invariants.
  - reflexivity.
  - reflexivity.
  - reflexivity.
Defined.

(** ** Searching *)

Lemma note_matches_hit (term : string) (n : note) (b : bool) :
  note_matches (toLowerCase term) n = inr b → (b = true ↔ hit term n).
Proof.
  unfold note_matches, hit.
  destruct (n !! "title") as [[| t |] |]; try done.
  destruct (includes (toLowerCase t) (toLowerCase term)) eqn:Ht.
  - intros [= <-]. split; [| done]. intros _. exists t. split; [done |].
    left. by apply NotesDBSpec.includes_lower.
  - destruct (n !! "content") as [[| c |] |]; try done.
    intros [= <-]. rewrite NotesDBSpec.includes_lower. split.
    + intros Hc. exists t. split; [done |]. right. by exists c.
    + intros (t' & [= <-] & [Hhit | (c' & [= <-] & Hhit)]); [| done].
      apply NotesDBSpec.includes_lower in Hhit. congruence.
Qed.

Lemma note_matches_error (term : string) (n : note) (e : error) :
  note_matches term n = inl e → e = TypeError.
Proof.
  unfold note_matches.
  destruct (n !! "title") as [[| t |] |]; try by intros [= <-].
  destruct (includes (toLowerCase t) term); [done |].
  destruct (n !! "content") as [[| c |] |]; try done; by intros [= <-].
Qed.

Lemma filter_notes_error (term : string) (l : list note) (e : error) :
  filter_notes term l = inl e → e = TypeError.
Proof.
  induction l as [| n l IH]; simpl; [done |].
  destruct (note_matches term n) as [e' | b] eqn:Hn.
  - intros [= <-]. by apply note_matches_error in Hn.
  - destruct (filter_notes term l) as [e' | r]; [| done].
    intros [= <-]. by apply IH.
Qed.

Lemma filter_notes_throws (term : string) (l : list note) (n : note) (e : error) :
  n ∈ l → note_matches term n = inl e → filter_notes term l = inl TypeError.
Proof.
  intros Hin Hn. induction Hin as [n l | n m l _ IH]; simpl.
  - rewrite Hn. by rewrite (note_matches_error _ _ _ Hn).
  - destruct (note_matches term m) as [e' | b] eqn:Hm.
    + by rewrite (note_matches_error _ _ _ Hm).
    + by rewrite (IH Hn).
Qed.

(** X7: one record is enough to make a search fail.  On text of code
    units below 256: when a record has no title that is a string, or has
    a title in which the term does not occur, case ignored, and no content
    that is a string, [searchNotes] is rejected with a [TypeError],
    whatever the other records are. *)
Theorem searchNotes_type_error (term : string) (os : objectStore) (k : key) (n : note) :
  records os !! k = Some n →
  (∀ t, n !! "title" ≠ Some (VStr t)) ∨
  ((∃ t, n !! "title" = Some (VStr t) ∧ ¬ ci_substring term t) ∧
   ∀ c, n !! "content" ≠ Some (VStr c)) →
  searchNotes term os = Rejected TypeError.
Proof.
  intros Hk Hbad. unfold searchNotes.
  assert (Hin : n ∈ getAll os) by (apply NotesDBSpec.elem_of_getAll; eauto).
  assert (Hn : note_matches (toLowerCase term) n = inl TypeError).
  { unfold note_matches. destruct Hbad as [Htitle | [(t & Ht & Hno) Hcontent]].
    - destruct (n !! "title") as [[| t |] |]; try done. by destruct (Htitle t).
    - rewrite Ht. destruct (includes (toLowerCase t) (toLowerCase term)) eqn:Hinc.
      + by apply NotesDBSpec.includes_lower in Hinc.
      + destruct (n !! "content") as [[| c |] |]; try done. by destruct (Hcontent c). }
  by rewrite (filter_notes_throws _ _ _ _ Hin Hn).
Qed.

Lemma searchNotes_type_error_witness :
  searchNotes "milk"
    (addNote {[ "content" := VStr "milk" ]} 40 40 NotesDBSpec.one_note).2
  = Rejected TypeError.
Proof.
  apply (searchNotes_type_error "milk" _ (KNum 2)
           (<["id" := VNum 2]>
              (<["updatedAt" := VNum 40]>
                 (<["createdAt" := VNum 40]> {[ "content" := VStr "milk" ]})))).
  - reflexivity.
  - left. intros t. by vm_compute.
Defined.

Lemma filter_notes_resolved (term : string) (l r : list note) :
  filter_notes (toLowerCase term) l = inr r →
  sublist r l ∧ ∀ n, n ∈ r ↔ n ∈ l ∧ hit term n.
Proof.
  revert r. induction l as [| m l IH]; simpl; intros r.
  - intros [= <-]. split; [done |]. intros n. split; [by inversion 1 | by intros [? _]].
  - destruct (note_matches (toLowerCase term) m) as [e | b] eqn:Hm; [done |].
    destruct (filter_notes (toLowerCase term) l) as [e | r'] eqn:Hl; [done |].
    destruct (IH r' eq_refl) as [Hsub Hiff].
    apply note_matches_hit in Hm. intros [= <-]. destruct b.
    + split; [by apply sublist_skip |]. intros n.
      rewrite !elem_of_cons, Hiff. split.
      * intros [-> | [? ?]]; [split; [by left | by apply Hm] | by split; [right |]].
      * intros [[-> | ?] ?]; [by left | by right].
    + split; [by apply sublist_cons |]. intros n.
      rewrite elem_of_cons, Hiff. split.
      * intros [? ?]. by split; [right |].
      * intros [[-> | ?] Hhit]; [| done]. apply Hm in Hhit. done.
Qed.

(** X8: on any store with text of code units below 256, when
    [searchNotes] resolves, its result lists, in the order of [getAll],
    the records for which the term occurs, case ignored, in the title or
    in the content: these and no other. *)
Theorem searchNotes_resolved (term : string) (os : objectStore) (l : list note) :
  searchNotes term os = Resolved l →
  sublist l (getAll os) ∧
  ∀ n, n ∈ l ↔ (∃ k, records os !! k = Some n) ∧ hit term n.
Proof.
  unfold searchNotes.
  destruct (filter_notes (toLowerCase term) (getAll os)) as [e | r] eqn:Hrun; [done |].
  intros [= <-]. destruct (filter_notes_resolved _ _ _ Hrun) as [Hsub Hiff].
  split; [done |]. intros n. by rewrite Hiff, NotesDBSpec.elem_of_getAll.
Qed.

Lemma searchNotes_resolved_witness :
  searchNotes "list" NotesDBSpec.one_note = Resolved (getAll NotesDBSpec.one_note) ∧
  sublist (getAll NotesDBSpec.one_note) (getAll NotesDBSpec.one_note).
Proof.
  split; [reflexivity |].
  apply (searchNotes_resolved "list" NotesDBSpec.one_note). reflexivity.
Defined.

Lemma append_assoc (a b c : string) : ((a ++ b) ++ c = a ++ (b ++ c))%string.
Proof.
  induction a as [| x a IH]; [done |].
  rewrite !JsStringSpec.append_cons. by rewrite IH.
Qed.

Lemma ci_substring_lower (t s : string) :
  ci_substring t s ↔
  ∃ pre post, toLowerCase s = (pre ++ toLowerCase t ++ post)%string.
Proof. by rewrite <- NotesDBSpec.includes_lower, JsStringSpec.includes_spec. Qed.

Lemma ci_substring_trans (t1 t2 s : string) :
  ci_substring t1 t2 → ci_substring t2 s → ci_substring t1 s.
Proof.
  rewrite !ci_substring_lower. intros (a & b & H12) (c & d & H2s).
  exists (c ++ a)%string, (b ++ d)%string.
  by rewrite H2s, H12, !append_assoc.
Qed.

Lemma hit_narrow (t1 t2 : string) (n : note) :
  ci_substring t1 t2 → hit t2 n → hit t1 n.
Proof.
  intros H12 (t & Ht & [Hhit | (c & Hc & Hhit)]); exists t; (split; [done |]).
  - left. by apply (ci_substring_trans t1 t2).
  - right. exists c. split; [done |]. by apply (ci_substring_trans t1 t2).
Qed.

(** X9: a longer term narrows the result.  On text of code units below
    256: when the term of one search occurs, case ignored, in the term of
    another, and both searches resolve, every record that the second finds
    the first finds too. *)
Theorem searchNotes_narrows (t1 t2 : string) (os : objectStore) (l1 l2 : list note) :
  ci_substring t1 t2 →
  searchNotes t1 os = Resolved l1 →
  searchNotes t2 os = Resolved l2 →
  ∀ n, n ∈ l2 → n ∈ l1.
Proof.
  unfold searchNotes. intros H12 Hr1 Hr2 n Hn.
  destruct (filter_notes (toLowerCase t1) (getAll os)) as [e | r1] eqn:Hrun1; [done |].
  destruct (filter_notes (toLowerCase t2) (getAll os)) as [e | r2] eqn:Hrun2; [done |].
  injection Hr1 as <-. injection Hr2 as <-.
  apply filter_notes_resolved in Hrun1 as [_ Hiff1].
  apply filter_notes_resolved in Hrun2 as [_ Hiff2].
  apply Hiff2 in Hn as [Hk Hhit]. apply Hiff1. split; [done |].
  by apply (hit_narrow t1 t2).
Qed.

Lemma searchNotes_narrows_witness :
  ∃ l1 n, searchNotes "LIST" NotesDBSpec.one_note = Resolved l1 ∧
          records NotesDBSpec.one_note !! KNum 1 = Some n ∧ n ∈ l1.
Proof.
  exists (getAll NotesDBSpec.one_note).
  exists (<["id" := VNum 1]>
            (<["updatedAt" := VNum 10]>
               (<["createdAt" := VNum 10]> (to_note NotesDBSpec.grocery)))).
  split; [reflexivity |]. split; [reflexivity |].
  apply (searchNotes_narrows "LIST" "ry list" NotesDBSpec.one_note
           (getAll NotesDBSpec.one_note) (getAll NotesDBSpec.one_note)).
  - exists "ry "%string, "list"%string, ""%string. split; [reflexivity |].
    by apply NotesDBSpec.ci_eq_lower.
  - reflexivity.
  - reflexivity.
  - apply NotesDBSpec.elem_of_getAll. by exists (KNum 1).
Defined.

End NotesDBOpsSpec.

(** * Further properties of the cache lifecycle manager *)

Module ServiceWorkerOpsSpec.
Import JsString ServiceWorker ServiceWorkerOps.

Ltac unfold_M :=
  unfold mbind, M_bind, mret, M_ret, throw, catch, fire_and_forget,
    get_caches, set_caches, emit, alloc, deref, consume in *.

(** ** Deleting partitions *)

Lemma foldl_storage_delete (names : list string) : ∀ cs : list (string * cache),
  foldl (λ acc name, storage_delete name acc) cs names
  = List.filter (λ p, negb (existsb (String.eqb p.1) names)) cs.
Proof.
  induction names as [| name names IH]; intros cs; simpl.
  - induction cs as [| p cs IHcs]; simpl; [done | by rewrite <- IHcs].
  - rewrite IH. unfold storage_delete.
    induction cs as [| p cs IHcs]; simpl; [done |].
    destruct (String.eqb p.1 name); simpl; [done |].
    destruct (existsb (String.eqb p.1) names); simpl; [done | by rewrite IHcs].
Qed.

Lemma existsb_eqb_elem (x : string) (l : list string) :
  existsb (String.eqb x) l = true ↔ x ∈ l.
Proof.
  rewrite existsb_exists. split.
  - intros (y & Hin & Heq). apply String.eqb_eq in Heq as ->.
    by apply list_elem_of_In.
  - intros Hin. exists x. split; [by apply list_elem_of_In | apply String.eqb_refl].
Qed.

Lemma activate_caches (cs : list (string * cache)) :
  foldl (λ acc name, storage_delete name acc) cs
    (List.filter (λ name, negb (String.eqb name CACHE_NAME)
                          && negb (String.eqb name DYNAMIC_CACHE)) (cs.*1))
  = List.filter (λ p, current p.1) cs.
Proof.
  rewrite foldl_storage_delete. apply List.filter_ext_in. intros p Hin.
  unfold current. destruct (existsb _ _) eqn:Hex.
  - apply existsb_eqb_elem, list_elem_of_In, List.filter_In in Hex as [_ Hold].
    by destruct (String.eqb p.1 CACHE_NAME), (String.eqb p.1 DYNAMIC_CACHE).
  - destruct (String.eqb p.1 CACHE_NAME) eqn:H1; [done |].
    destruct (String.eqb p.1 DYNAMIC_CACHE) eqn:H2; [done |].
    assert (Hin' : existsb (String.eqb p.1)
                     (List.filter (λ name, negb (String.eqb name CACHE_NAME)
                                           && negb (String.eqb name DYNAMIC_CACHE))
                        (cs.*1)) = true); [| congruence].
    apply existsb_eqb_elem, list_elem_of_In, List.filter_In. split.
    + apply list_elem_of_In, list_elem_of_fmap. exists p. split; [done |].
      by apply list_elem_of_In.
    + by rewrite H1, H2.
Qed.

Lemma activate_handler_run (s : state) :
  activate_handler s
  = (Ok tt, {| caches := List.filter (λ p, current p.1) (caches s);
               heap := heap s; log := log s;
               skipWaitingCalled := skipWaitingCalled s;
               clientsClaimed := true |}).
Proof.
  unfold activate_handler, clients_claim. unfold_M. simpl.
  by rewrite activate_caches.
Qed.

Lemma filter_twice {A} (f : A → bool) (l : list A) :
  List.filter f (List.filter f l) = List.filter f l.
Proof.
  induction l as [| x l IH]; simpl; [done |].
  destruct (f x) eqn:Hx; simpl; [by rewrite Hx, IH | done].
Qed.

(** X11: activation deletes the partitions of other generations and
    nothing else.  What is left are the partitions named as the static
    and the dynamic partition of this generation, with their content and
    in their order; the clients are claimed, no request is sent, and a
    second activation changes no partition. *)
Theorem activate_keeps_current (s : state) :
  (activate_handler s).1 = Ok tt ∧
  caches (activate_handler s).2 = List.filter (λ p, current p.1) (caches s) ∧
  (∀ name c, (name, c) ∈ caches (activate_handler s).2 ↔
             (name, c) ∈ caches s ∧ (name = CACHE_NAME ∨ name = DYNAMIC_CACHE)) ∧
  clientsClaimed (activate_handler s).2 = true ∧
  log (activate_handler s).2 = log s ∧
  caches (activate_handler (activate_handler s).2).2 = caches (activate_handler s).2.
Proof.
  rewrite (activate_handler_run (activate_handler s).2), (activate_handler_run s).
  simpl.
  split; [done |]. split; [done |]. split.
  - intros name c. rewrite !list_elem_of_In, List.filter_In.
    unfold current. simpl. rewrite orb_true_iff, !String.eqb_eq. tauto.
  - split; [done |]. split; [done |]. apply filter_twice.
Qed.

Lemma clear_all (cs : list (string * cache)) :
  foldl (λ acc name, storage_delete name acc) cs (cs.*1) = [].
Proof.
  rewrite foldl_storage_delete.
  assert (Hall : ∀ p, p ∈ cs → negb (existsb (String.eqb p.1) (cs.*1)) = false).
  { intros p Hin. apply negb_false_iff, existsb_eqb_elem, list_elem_of_fmap. eauto. }
  induction cs as [| p cs' IH] in Hall |- *; [done |].
  generalize dependent (((p :: cs').*1)). intros names Hall. simpl.
  rewrite (Hall p) by left.
  clear IH. induction cs' as [| q cs'' IH]; simpl; [done |].
  rewrite (Hall q) by (right; left). apply IH. intros p' Hin.
  apply Hall. apply elem_of_cons in Hin as [-> | Hin]; [left | right; by right].
Qed.

(** X12: the message [CLEAR_CACHE] leaves no partition at all and is
    answered once on the port; [SKIP_WAITING] calls [skipWaiting] and
    touches neither the partitions nor the port; any other message
    changes nothing. *)
Theorem message_effects (s : state) :
  (caches (message_handler CLEAR_CACHE s).2 = [] ∧
   log (message_handler CLEAR_CACHE s).2 = log s ++ [EvReply] ∧
   skipWaitingCalled (message_handler CLEAR_CACHE s).2 = skipWaitingCalled s) ∧
  (caches (message_handler SKIP_WAITING s).2 = caches s ∧
   log (message_handler SKIP_WAITING s).2 = log s ∧
   skipWaitingCalled (message_handler SKIP_WAITING s).2 = true) ∧
  message_handler OtherMessage s = (Ok tt, s).
Proof.
  unfold message_handler, skipWaiting. unfold_M. simpl.
  rewrite clear_all. done.
Qed.

(** ** Inserting into a partition *)

Lemma has_cache_open (name : string) (cs : list (string * cache)) :
  has_cache name (storage_open name cs) = true.
Proof.
  unfold storage_open. destruct (has_cache name cs) eqn:Hhas; [done |].
  unfold has_cache. rewrite existsb_app. simpl.
  by rewrite String.eqb_refl, orb_true_r.
Qed.

Lemma storage_insert_names (name h : string) (r : Response) (cs : list (string * cache)) :
  (storage_insert name h r cs).*1 = cs.*1.
Proof.
  induction cs as [| [n c] cs IH]; simpl; [done |].
  destruct (String.eqb n name); [done |].
  rewrite !fmap_cons. by f_equal.
Qed.

Lemma has_cache_names (name : string) (cs cs' : list (string * cache)) :
  cs'.*1 = cs.*1 → has_cache name cs' = has_cache name cs.
Proof.
  intros Hnames. unfold has_cache.
  assert (Hex : ∀ l : list (string * cache),
             existsb (λ p, String.eqb p.1 name) l
             = existsb (λ n, String.eqb n name) (l.*1)).
  { induction l as [| p l IH]; simpl; [done | by rewrite IH]. }
  by rewrite !Hex, Hnames.
Qed.

(** After an insertion under [h] in a partition that exists, [h] is
    found. *)
Lemma storage_match_insert (name h : string) (r : Response) (cs : list (string * cache)) :
  has_cache name cs = true →
  is_Some (storage_match (storage_insert name h r cs) h).
Proof.
  induction cs as [| [n c] cs IH]; simpl; [done |].
  destruct (String.eqb n name) eqn:Hn; simpl.
  - intros _. by rewrite lookup_insert_eq.
  - intros Hhas. destruct (c !! h); [done | by apply IH].
Qed.

(** An insertion hides no URL. *)
Lemma storage_match_insert_mono (name h h' : string) (r : Response)
    (cs : list (string * cache)) :
  is_Some (storage_match cs h') →
  is_Some (storage_match (storage_insert name h r cs) h').
Proof.
  induction cs as [| [n c] cs IH]; simpl; [done |].
  destruct (String.eqb n name) eqn:Hn; simpl.
  - destruct (decide (h' = h)) as [-> | Hne].
    + intros _. by rewrite lookup_insert_eq.
    + by rewrite lookup_insert_ne.
  - destruct (c !! h'); [done | apply IH].
Qed.

(** Where no partition holds [h], an insertion under [h] in a partition
    that exists is what [h] then finds, and every snapshot stays. *)
Lemma storage_match_insert_new (name h : string) (r : Response)
    (cs : list (string * cache)) :
  storage_match cs h = None → has_cache name cs = true →
  storage_match (storage_insert name h r cs) h = Some r.
Proof.
  induction cs as [| [n c] cs IH]; simpl; [done |].
  destruct (c !! h) eqn:Hc; [done |].
  destruct (String.eqb n name) eqn:Hn; simpl.
  - intros _ _. by rewrite lookup_insert_eq.
  - rewrite Hc. apply IH.
Qed.



Lemma storage_match_open (name h : string) (cs : list (string * cache)) :
  storage_match (storage_open name cs) h = storage_match cs h.
Proof.
  unfold storage_open. destruct (has_cache name cs); [done |].
  induction cs as [| [n c] cs IH]; simpl; [by rewrite lookup_empty |].
  destruct (c !! h); [done | apply IH].
Qed.

Lemma deliver_caches (r : result (option nat)) (s : state) :
  caches (deliver r s).2 = caches s ∧ log (deliver r s).2 = log s ∧
  skipWaitingCalled (deliver r s).2 = skipWaitingCalled s.
Proof.
  unfold deliver, consume. destruct r as [[l |] | e]; [| done | done].
  destruct (heap s !! l) as [o |]; [| done]. by destruct (bodyUsed o).
Qed.

Section Worker.

Variable location_origin : string.

(** What a cache miss does to the partitions and to the log. *)
Lemma respond_miss (net : network) (req : Request) (s : state) :
  cache_lookup (method req) (href (url req)) (caches s) = None →
  caches (respond location_origin net req s).2
  = match net (method req) (href (url req)) with
    | Some r =>
        if status r =? 200 then
          if String.eqb (method req) "GET" && http_scheme (href (url req))
             && negb (varies_on_all r)
          then storage_insert DYNAMIC_CACHE (href (url req)) r
                 (storage_open DYNAMIC_CACHE (caches s))
          else storage_open DYNAMIC_CACHE (caches s)
        else caches s
    | None => caches s
    end ∧
  (∃ puts, log (respond location_origin net req s).2
           = log s ++ EvFetch (method req) (href (url req)) :: puts) ∧
  skipWaitingCalled (respond location_origin net req s).2 = skipWaitingCalled s ∧
  (∀ r, net (method req) (href (url req)) = Some r →
        (respond location_origin net req s).1 = Ok (Some (length (heap s)))).
Proof.
  intros Hmiss.
  unfold respond, caches_match, fetch, clone, caches_open, cache_put. unfold_M.
  cbn [caches heap log skipWaitingCalled clientsClaimed].
  rewrite Hmiss.
  destruct (net (method req) (href (url req))) as [r |] eqn:Hnet.
  - cbn [caches heap log skipWaitingCalled clientsClaimed].
    rewrite ServiceWorkerSpec.lookup_fresh. cbn [content bodyUsed].
    destruct (Z.eqb_spec (status r) 200) as [H200 | H200].
    + cbn [caches heap log skipWaitingCalled clientsClaimed].
      rewrite ServiceWorkerSpec.lookup_fresh. cbn [content bodyUsed].
      cbn [caches heap log skipWaitingCalled clientsClaimed].
      rewrite ServiceWorkerSpec.lookup_fresh. cbn [content bodyUsed].
      assert (H206 : (status r =? 206) = false) by (by rewrite H200).
      rewrite H206.
      destruct (String.eqb (method req) "GET"); cbn [negb andb];
        [destruct (http_scheme (href (url req))); cbn [negb andb];
         [destruct (varies_on_all r); cbn [negb] |] |].
      * cbn [fst snd caches heap log skipWaitingCalled clientsClaimed].
        split; [done |]. split; [by eexists | by split; [| intros ? [= <-]]].
      * cbn [caches heap log skipWaitingCalled clientsClaimed].
        rewrite ServiceWorkerSpec.lookup_fresh.
        cbn [content bodyUsed fst snd caches heap log skipWaitingCalled clientsClaimed].
        split; [done |]. split; [| by split; [| intros ? [= <-]]].
        eexists. by rewrite <- app_assoc.
      * cbn [fst snd caches heap log skipWaitingCalled clientsClaimed].
        split; [done |]. split; [by eexists | by split; [| intros ? [= <-]]].
      * cbn [fst snd caches heap log skipWaitingCalled clientsClaimed].
        split; [done |]. split; [by eexists | by split; [| intros ? [= <-]]].
    + cbn [fst snd caches heap log skipWaitingCalled clientsClaimed].
      split; [done |]. split; [by eexists | by split; [| intros ? [= <-]]].
  - destruct (String.eqb (destination req) "document").
    + unfold cache_lookup. rewrite String.eqb_refl.
      cbn [caches heap log skipWaitingCalled clientsClaimed].
      destruct (storage_match (caches s) (resolve location_origin "/index.html"));
        cbn [fst snd caches heap log skipWaitingCalled clientsClaimed];
        (split; [done |]; split; [by eexists | done]).
    + cbn [fst snd caches heap log skipWaitingCalled clientsClaimed].
      split; [done |]. split; [by eexists | done].
Qed.


End Worker.


Section Offline.

Variable location_origin : string.

(** ** A successful installation *)

Lemma fetch_all_ok (net : network) (urls : list string) : ∀ s : state,
  Forall (asset_served location_origin net) urls →
  ∃ rs,
    fetch_all location_origin net urls s
    = (Ok rs, logged (map (λ u, EvFetch "GET" (resolve location_origin u)) urls) s) ∧
    rs.*1 = map (resolve location_origin) urls.
Proof.
  induction urls as [| u urls IH]; intros s Hok.
  - exists []. simpl. unfold mret, M_ret, logged. rewrite app_nil_r. by destruct s.
  - apply Forall_cons in Hok as [(_ & r & Hu & Hstatus & H206 & Hvary) Hok].
    destruct (IH (logged [EvFetch "GET" (resolve location_origin u)] s) Hok)
      as (rest & Hrun & Hnames).
    simpl. unfold_M. fold (logged [EvFetch "GET" (resolve location_origin u)] s).
    rewrite Hrun, Hu.
    assert (addable r = true) as ->.
    { unfold addable, varies_on_all. rewrite Hstatus, Hvary.
      by destruct (Z.eqb_spec (status r) 206). }
    eexists. split.
    + f_equal. unfold logged. simpl. by rewrite <- app_assoc.
    + rewrite fmap_cons. simpl. by f_equal.
Qed.

Lemma foldl_insert_mono (name h : string) (rs : list (string * Response)) :
  ∀ cs : list (string * cache),
    is_Some (storage_match cs h) →
    is_Some (storage_match
               (foldl (λ acc p, storage_insert name p.1 p.2 acc) cs rs) h).
Proof.
  induction rs as [| p rs IH]; intros cs Hcs; simpl; [done |].
  by apply IH, storage_match_insert_mono.
Qed.

Lemma foldl_insert_found (name h : string) (rs : list (string * Response)) :
  ∀ cs : list (string * cache),
    has_cache name cs = true → h ∈ rs.*1 →
    is_Some (storage_match
               (foldl (λ acc p, storage_insert name p.1 p.2 acc) cs rs) h).
Proof.
  induction rs as [| p rs IH]; intros cs Hhas Hin; simpl; [by inversion Hin |].
  rewrite fmap_cons in Hin. apply elem_of_cons in Hin as [-> | Hin].
  - by apply foldl_insert_mono, storage_match_insert.
  - apply IH; [| done].
    by rewrite (has_cache_names name cs) by apply storage_insert_names.
Qed.

(** X13: when every asset of the manifest has an http URL and is fetched
    with an ok status other than 206 and without a [Vary] header, the
    installation succeeds after one request per asset, [skipWaiting] is
    called and no error is logged.  From then on every asset of the manifest is found in the
    partitions, and a GET request for it that the worker intercepts is
    answered from there whatever the state of the network: no request is
    sent. *)
Theorem install_serves_manifest (net : network) (s : state) :
  Forall (asset_served location_origin net) STATIC_ASSETS →
  ∃ s',
    install location_origin net s = (Installed, s') ∧
    skipWaitingCalled s' = true ∧
    log s' = log s ++ map (λ u, EvFetch "GET" (resolve location_origin u)) STATIC_ASSETS ∧
    (∀ u, u ∈ STATIC_ASSETS →
          is_Some (cache_lookup "GET" (resolve location_origin u) (caches s'))) ∧
    (∀ u req net',
        u ∈ STATIC_ASSETS →
        method req = "GET" →
        href (url req) = resolve location_origin u →
        intercepts location_origin req = true →
        ∃ l s2, fetch_handler location_origin net' req s'
                = (RespondWith (Ok (Some l)), s2) ∧
                log s2 = log s' ∧
                is_Some (deliver (Ok (Some l)) s2).1).
Proof.
  intros Hok.
  assert (Hfound : ∀ rs u,
             rs.*1 = map (resolve location_origin) STATIC_ASSETS →
             u ∈ STATIC_ASSETS →
             is_Some (cache_lookup "GET" (resolve location_origin u)
                        (foldl (λ acc p, storage_insert CACHE_NAME p.1 p.2 acc)
                           (storage_open CACHE_NAME (caches s)) rs))).
  { intros rs u Hnames Hu. unfold cache_lookup. rewrite String.eqb_refl.
    apply foldl_insert_found; [apply has_cache_open |].
    rewrite Hnames. apply list_elem_of_In, in_map. by apply list_elem_of_In. }
  unfold install, install_handler, caches_open, cache_addAll, skipWaiting. unfold_M.
  cbn [caches heap log skipWaitingCalled clientsClaimed].
  match goal with
  | |- context [fetch_all _ _ _ ?st] =>
      destruct (fetch_all_ok net STATIC_ASSETS st Hok) as (rs & Hrun & Hnames)
  end.
  rewrite Hrun. cbn [logged caches heap log skipWaitingCalled clientsClaimed].
  eexists. split; [reflexivity |].
  cbn [caches heap log skipWaitingCalled clientsClaimed].
  split; [done |]. split; [done |]. split; [by intros u; apply Hfound |].
  intros u req net' Hu Hget Hhref Hint.
  destruct (Hfound rs u Hnames Hu) as [r Hr].
  unfold fetch_handler. rewrite Hint.
  erewrite ServiceWorkerSpec.respond_hit;
    [| cbn [caches]; rewrite Hget, Hhref; exact Hr].
  eexists _, _. split; [reflexivity |].
  cbn [caches heap log skipWaitingCalled clientsClaimed]. split; [done |].
  unfold deliver. cbn [heap]. rewrite ServiceWorkerSpec.lookup_fresh. by eexists.
Qed.

(** ** The dynamic partition *)

(** X15: what the network gives is what the cache gives next.  After a
    GET request for an http URL that no partition could answer and that
    the network answered with status 200 and no [*] in the [Vary] header,
    the same request is answered with the very response of the network,
    without a request to the network. *)
Theorem dynamic_round_trip (net net' : network) (req : Request) (s : state)
    (r : Response) :
  intercepts location_origin req = true →
  method req = "GET" →
  http_scheme (href (url req)) = true →
  cache_lookup (method req) (href (url req)) (caches s) = None →
  net (method req) (href (url req)) = Some r →
  status r = 200 →
  varies_on_all r = false →
  let s1 := handle location_origin (SigFetch net req) s in
  cache_lookup (method req) (href (url req)) (caches s1) = Some r ∧
  ∃ l s2,
    fetch_handler location_origin net' req s1 = (RespondWith (Ok (Some l)), s2) ∧
    log s2 = log s1 ∧
    (deliver (Ok (Some l)) s2).1 = Some r.
Proof.
  intros Hint Hget Hhttp Hmiss Hnet H200 Hvary s1.
  assert (Hhit : cache_lookup (method req) (href (url req)) (caches s1) = Some r).
  { subst s1. unfold handle, fetch_handler. rewrite Hint.
    destruct (respond location_origin net req s) as [out s'] eqn:Hrun.
    destruct (deliver_caches out s') as (-> & _).
    destruct (respond_miss location_origin net req s Hmiss) as (Hcaches & _).
    rewrite Hrun in Hcaches. simpl in Hcaches.
    rewrite Hcaches, Hnet, H200, Hget, Hhttp, Hvary.
    simpl. unfold cache_lookup in *. rewrite Hget in *. simpl in *.
    apply storage_match_insert_new; [by rewrite storage_match_open |].
    apply has_cache_open. }
  split; [done |].
  unfold fetch_handler. rewrite Hint.
  rewrite (ServiceWorkerSpec.respond_hit location_origin net' req s1 r Hhit).
  eexists _, _. split; [reflexivity |].
  cbn [caches heap log skipWaitingCalled clientsClaimed]. split; [done |].
  unfold deliver. cbn [heap]. by rewrite ServiceWorkerSpec.lookup_fresh.
Qed.

(** ** Which requests are intercepted *)

(** X16: the handler leaves a request alone exactly when its origin is
    not the worker's and the text "unpkg.com" occurs nowhere in its URL;
    the state is then untouched.  Every other request is answered by the
    worker. *)
Theorem interception (net : network) (req : Request) (s : state) :
  ((fetch_handler location_origin net req s).1 = NotIntercepted ↔
   origin (url req) ≠ location_origin ∧
   ¬ ∃ pre post, href (url req) = (pre ++ "unpkg.com" ++ post)%string) ∧
  ((fetch_handler location_origin net req s).1 = NotIntercepted →
   (fetch_handler location_origin net req s).2 = s).
Proof.
  unfold fetch_handler, intercepts.
  destruct (String.eqb_spec (origin (url req)) location_origin) as [Ho | Ho]; simpl.
  - destruct (respond location_origin net req s). simpl.
    split; [| done]. split; [done | by intros [? _]].
  - destruct (includes (href (url req)) "unpkg.com") eqn:Hinc; simpl.
    + apply JsStringSpec.includes_spec in Hinc.
      destruct (respond location_origin net req s). simpl.
      split; [| done]. split; [done | by intros [_ Hno]].
    + split; [| done]. split; [| done]. intros _. split; [done |].
      intros Hex. apply JsStringSpec.includes_spec in Hex. congruence.
Qed.

End Offline.

Lemma install_serves_manifest_witness :
  ∃ s', install app_origin online initial = (Installed, s') ∧
        skipWaitingCalled s' = true.
Proof.
  destruct (install_serves_manifest app_origin online initial)
    as (s' & Hrun & Hskip & _).
  - repeat constructor; (eexists; split; [reflexivity |]; by repeat split).
  - by exists s'.
Defined.

Lemma dynamic_round_trip_witness :
  cache_lookup "GET" "https://notes.example/styles.css"
    (caches (handle app_origin (SigFetch online ServiceWorkerSpec.stylesheet) installed))
  = Some {| status := 200; body := "https://notes.example/styles.css";
            vary := [] |}.
Proof.
  apply (dynamic_round_trip app_origin online offline ServiceWorkerSpec.stylesheet
           installed
           {| status := 200; body := "https://notes.example/styles.css";
              vary := [] |});
    reflexivity.
Defined.

(** A response that varies on [*] goes to the page and into no partition;
    a manifest answered with partial responses is not stored. *)
Example refused_by_the_cache :
  let varying : network :=
    λ _ h, Some {| status := 200; body := h; vary := ["*"%string] |} in
  let partial : network :=
    λ _ h, Some {| status := 206; body := h; vary := [] |} in
  (∃ l s', fetch_handler app_origin varying ServiceWorkerSpec.stylesheet installed
           = (RespondWith (Ok (Some l)), s') ∧
           (deliver (Ok (Some l)) s').1
           = Some {| status := 200; body := "https://notes.example/styles.css";
                     vary := ["*"%string] |} ∧
           storage_match (caches s') "https://notes.example/styles.css" = None) ∧
  caches (install app_origin partial initial).2 = [(CACHE_NAME, ∅)] ∧
  skipWaitingCalled (install app_origin partial initial).2 = false.
Proof.
  split; [| split; reflexivity].
  eexists _, _. split; [vm_compute; reflexivity |]. split; reflexivity.
Qed.

(** ** The partitions over the life of a worker *)

Lemma has_cache_false (name : string) (cs : list (string * cache)) :
  has_cache name cs = false → name ∉ cs.*1.
Proof.
  unfold has_cache. intros Hhas Hin.
  apply list_elem_of_fmap in Hin as (p & -> & Hin).
  assert (existsb (λ q : string * cache, String.eqb q.1 p.1) cs = true); [| congruence].
  apply existsb_exists. exists p. split; [by apply list_elem_of_In | apply String.eqb_refl].
Qed.

Lemma tidy_open (name : string) (cs : list (string * cache)) :
  current name = true → tidy cs → tidy (storage_open name cs).
Proof.
  intros Hcur [Hnd Hall]. unfold storage_open.
  destruct (has_cache name cs) eqn:Hhas; [done |].
  apply has_cache_false in Hhas. unfold tidy. rewrite fmap_app. simpl. split.
  - apply NoDup_app. split; [done |]. split; [| apply NoDup_singleton].
    intros x Hx Hx'. apply list_elem_of_singleton in Hx' as ->. done.
  - apply Forall_app. split; [done | by constructor].
Qed.

Lemma tidy_names (cs cs' : list (string * cache)) :
  cs'.*1 = cs.*1 → tidy cs → tidy cs'.
Proof. unfold tidy. by intros ->. Qed.

Lemma foldl_insert_names (name : string) (rs : list (string * Response)) :
  ∀ cs : list (string * cache),
    (foldl (λ acc p, storage_insert name p.1 p.2 acc) cs rs).*1 = cs.*1.
Proof.
  induction rs as [| p rs IH]; intros cs; simpl; [done |].
  by rewrite IH, storage_insert_names.
Qed.

Lemma tidy_filter (f : string * cache → bool) (cs : list (string * cache)) :
  tidy cs → tidy (List.filter f cs).
Proof.
  intros [Hnd Hall]. unfold tidy.
  induction cs as [| p cs IH]; simpl; [done |].
  rewrite fmap_cons in Hnd, Hall.
  apply NoDup_cons in Hnd as [Hp Hnd]. apply Forall_cons in Hall as [Hc Hall].
  destruct (IH Hnd Hall) as [IHnd IHall].
  destruct (f p); [| done]. rewrite fmap_cons. split.
  - apply NoDup_cons. split; [| done]. intros Hin. apply Hp.
    apply list_elem_of_fmap in Hin as (q & -> & Hq).
    apply list_elem_of_fmap. exists q. split; [done |].
    by apply list_elem_of_In, List.filter_In in Hq as [Hq _]; apply list_elem_of_In.
  - by constructor.
Qed.

Section Life.

Variable location_origin : string.

Lemma tidy_install (net : network) (s : state) :
  tidy (caches s) → tidy (caches (install_handler location_origin net s).2).
Proof.
  intros Htidy.
  apply (tidy_names (storage_open CACHE_NAME (caches s)));
    [| by apply tidy_open].
  unfold install_handler, caches_open, cache_addAll, skipWaiting. unfold_M.
  cbn [caches heap log skipWaitingCalled clientsClaimed].
  match goal with
  | |- context [fetch_all _ _ _ ?st] =>
      destruct (ServiceWorkerSpec.fetch_all_spec location_origin net STATIC_ASSETS st)
        as (res & Hrun & _)
  end.
  rewrite Hrun. destruct res as [rs | e]; cbn [logged fst snd caches];
    [apply foldl_insert_names | done].
Qed.

Lemma tidy_fetch (net : network) (req : Request) (s : state) :
  tidy (caches s) → tidy (caches (fetch_handler location_origin net req s).2).
Proof.
  intros Htidy. unfold fetch_handler.
  destruct (intercepts location_origin req); [| done].
  destruct (respond location_origin net req s) as [out s'] eqn:Hrun. simpl.
  destruct (cache_lookup (method req) (href (url req)) (caches s)) as [r0 |] eqn:Hlook.
  - rewrite (ServiceWorkerSpec.respond_hit location_origin net req s r0 Hlook) in Hrun.
    by injection Hrun as <- <-.
  - destruct (respond_miss location_origin net req s Hlook) as (Hcaches & _).
    rewrite Hrun in Hcaches. simpl in Hcaches. rewrite Hcaches.
    destruct (net (method req) (href (url req))) as [r1 |]; [| done].
    destruct (status r1 =? 200); [| done].
    destruct (String.eqb (method req) "GET" && http_scheme (href (url req))
              && negb (varies_on_all r1));
      [| by apply tidy_open].
    apply (tidy_names (storage_open DYNAMIC_CACHE (caches s)));
      [apply storage_insert_names | by apply tidy_open].
Qed.

Lemma tidy_handle (sg : signal) (s : state) :
  tidy (caches s) → tidy (caches (handle location_origin sg s)).
Proof.
  intros Htidy. destruct sg as [net | | net req | data]; cbn [handle].
  - by apply tidy_install.
  - rewrite activate_handler_run. by apply tidy_filter.
  - pose proof (tidy_fetch net req s Htidy) as Hf.
    destruct (fetch_handler location_origin net req s) as [[| out] s']; [done |].
    by destruct (deliver_caches out s') as (-> & _).
  - destruct data; [| done | done].
    unfold message_handler. unfold_M. simpl. rewrite clear_all. split; constructor.
Qed.

(** X17: over the whole life of a worker, whatever events it gets and
    whatever the network does, the Cache Storage holds no partition but
    the static and the dynamic one of this generation, each at most
    once. *)
Theorem partitions_of_this_generation (sgs : list signal) :
  tidy (caches (life location_origin sgs initial)) ∧
  (length (caches (life location_origin sgs initial)) ≤ 2)%nat ∧
  ∀ name c, (name, c) ∈ caches (life location_origin sgs initial) →
            name = CACHE_NAME ∨ name = DYNAMIC_CACHE.
Proof.
  assert (Htidy : tidy (caches (life location_origin sgs initial))).
  { unfold life. induction sgs as [| sg sgs IH] using rev_ind.
    - split; constructor.
    - rewrite foldl_app. simpl. by apply tidy_handle. }
  split; [done |]. destruct Htidy as [Hnd Hall]. split.
  - rewrite <- (length_fmap fst).
    change 2%nat with (length [CACHE_NAME; DYNAMIC_CACHE]).
    apply submseteq_length, NoDup_submseteq; [done |].
    intros name Hin. rewrite Forall_forall in Hall. specialize (Hall _ Hin).
    unfold current in Hall. apply orb_true_iff in Hall as [H | H];
      apply String.eqb_eq in H as ->; [left | right; left].
  - intros name c Hin. rewrite Forall_forall in Hall.
    assert (Hname : name ∈ (caches (life location_origin sgs initial)).*1).
    { apply list_elem_of_fmap. by exists (name, c). }
    specialize (Hall _ Hname). unfold current in Hall.
    apply orb_true_iff in Hall as [H | H]; apply String.eqb_eq in H; auto.
Qed.

End Life.

End ServiceWorkerOpsSpec.

(** * Properties of the components *)

Module ComponentsSpec.
Import JsString NotesDB Components.

(** ** The age of a note *)

Ltac div_facts d c :=
  pose proof (Z.div_mod d c ltac:(lia));
  pose proof (Z.mod_pos_bound d c ltac:(lia)).

(** X18: the age shown on a card, by the time [diff] since the timestamp.
    Below one minute, and for a timestamp in the future, it reads "À
    l'instant"; then it counts whole minutes from 1 to 59, whole hours
    from 1 to 23 and whole days from 1 to 6, each rounded down; from
    seven days on it is the date. *)
Theorem formatDate_ranges (toLocaleDateString : Z → string) (timestamp now : Z) :
  (now - timestamp < 60000 →
   formatDate toLocaleDateString timestamp now = "À l'instant") ∧
  (60000 ≤ now - timestamp < 3600000 →
   1 ≤ (now - timestamp) / 60000 ≤ 59 ∧
   formatDate toLocaleDateString timestamp now
   = "Il y a " +:+ pretty ((now - timestamp) / 60000) +:+ "min") ∧
  (3600000 ≤ now - timestamp < 86400000 →
   1 ≤ (now - timestamp) / 3600000 ≤ 23 ∧
   formatDate toLocaleDateString timestamp now
   = "Il y a " +:+ pretty ((now - timestamp) / 3600000) +:+ "h") ∧
  (86400000 ≤ now - timestamp < 604800000 →
   1 ≤ (now - timestamp) / 86400000 ≤ 6 ∧
   formatDate toLocaleDateString timestamp now
   = "Il y a " +:+ pretty ((now - timestamp) / 86400000) +:+ "j") ∧
  (604800000 ≤ now - timestamp →
   formatDate toLocaleDateString timestamp now = toLocaleDateString timestamp).
Proof.
  unfold formatDate. set (diff := now - timestamp).
  div_facts diff 60000. div_facts diff 3600000. div_facts diff 86400000.
  split; [| split; [| split; [| split]]]; intros Hd;
    repeat match goal with
           | |- context [?a <? ?b] => destruct (Z.ltb_spec a b)
           end; try lia; try (split; [lia | done]); try done.
Qed.

(** ** The preview of a note *)

Lemma substring_prefix (c : string) : ∀ n : nat,
  ∃ rest, c = (String.substring 0 n c +:+ rest) ∧
          String.length (String.substring 0 n c) = Nat.min n (String.length c).
Proof.
  induction c as [| a c IH]; intros [| n]; simpl.
  - by exists "".
  - by exists "".
  - by exists (String a c).
  - destruct (IH n) as (rest & Hrest & Hlen). exists rest.
    rewrite JsStringSpec.append_cons. simpl. by rewrite <- Hrest, Hlen.
Qed.

Lemma length_append (a b : string) :
  String.length (a +:+ b) = (String.length a + String.length b)%nat.
Proof.
  induction a as [| c a IH]; [done |].
  rewrite JsStringSpec.append_cons. simpl. by rewrite IH.
Qed.

(** X19: the preview of a card.  A note without content, or with an empty
    one, shows "Aucun contenu".  A content that is a string shows its
    first 80 code units, or all of them when there are fewer, followed by
    three dots in both cases; no preview is longer than 83 code units. *)
Theorem preview_bounded (n : note) :
  (n !! "content" = None ∨ n !! "content" = Some (VStr "") →
   preview n = inr "Aucun contenu") ∧
  (∀ c, n !! "content" = Some (VStr c) → c ≠ "" →
        ∃ shown rest, c = (shown +:+ rest) ∧
                      String.length shown = Nat.min 80 (String.length c) ∧
                      preview n = inr (shown +:+ "...")) ∧
  (∀ p, preview n = inr p → (String.length p ≤ 83)%nat).
Proof.
  unfold preview. split; [by intros [-> | ->] |]. split.
  - intros c -> Hc. destruct (substring_prefix c 80) as (rest & Hrest & Hlen).
    exists (String.substring 0 80 c), rest. split; [done |]. split; [done |].
    by destruct c.
  - intros p. destruct (n !! "content") as [[x | c | b] |].
    + destruct (x =? 0); [| done]. intros [= <-]. simpl. lia.
    + destruct c as [| a c]; intros Hp; injection Hp as <-; [simpl; lia |].
      destruct (substring_prefix (String a c) 80) as (rest & _ & Hlen).
      rewrite length_append.
      change (String.length (String.substring 0 80 (String a c)) + 3 ≤ 83)%nat.
      rewrite Hlen. lia.
    + destruct b; [done |]. intros [= <-]. simpl. lia.
    + intros [= <-]. simpl. lia.
Qed.

(** ** The word count *)

Definition nonempty (w : string) : bool := (0 <? String.length w)%nat.

Lemma nonempty_snoc (cur : string) (c : ascii) :
  nonempty (cur +:+ String c EmptyString) = true.
Proof.
  unfold nonempty. rewrite length_append. simpl. apply Nat.ltb_lt. lia.
Qed.

Lemma split_go_count (s : string) : ∀ (skipping : bool) (cur : string),
  (skipping = true → cur = EmptyString) →
  length (List.filter nonempty (split_go skipping cur s))
  = ((if nonempty cur then 1 else 0) + word_starts (nonempty cur) s)%nat.
Proof.
  induction s as [| c s IH]; intros skipping cur Hskip; simpl.
  - destruct (nonempty cur); simpl; lia.
  - destruct (is_space c).
    + destruct skipping.
      * rewrite (Hskip eq_refl). rewrite IH by done. done.
      * simpl. destruct (nonempty cur) eqn:Hcur; simpl; rewrite IH by done; done.
    + rewrite IH by done. rewrite nonempty_snoc.
      destruct (nonempty cur); simpl; lia.
Qed.

Lemma word_starts_app (a b : string) (c : ascii) : ∀ inword : bool,
  is_space c = true →
  word_starts inword (a +:+ String c b)
  = (word_starts inword a + word_starts false b)%nat.
Proof.
  intros inword Hc. revert inword.
  induction a as [| x a IH]; intros inword.
  - rewrite JsStringSpec.append_nil. simpl. by rewrite Hc.
  - rewrite JsStringSpec.append_cons. simpl.
    destruct (is_space x); rewrite IH; lia.
Qed.

Lemma word_starts_blank (s : string) :
  word_starts false s = 0%nat ↔
  ∀ pre c post, s = (pre +:+ String c post) → is_space c = true.
Proof.
  induction s as [| x s IH]; simpl.
  - split; [| done]. intros _ pre c post Heq. by destruct pre.
  - destruct (is_space x) eqn:Hx.
    + rewrite IH. split.
      * intros Hall pre c post Heq. destruct pre as [| y pre].
        -- rewrite JsStringSpec.append_nil in Heq. by injection Heq as <- _.
        -- rewrite JsStringSpec.append_cons in Heq. injection Heq as _ Heq. eauto.
      * intros Hall pre c post Heq. apply (Hall (String x pre) c post).
        by rewrite JsStringSpec.append_cons, Heq.
    + split; [lia |]. intros Hall.
      specialize (Hall "" x s eq_refl). congruence.
Qed.

(** X20: the word count of the editor is the number of places where a
    word begins.  It is 0 exactly when the text has nothing but white
    space, the empty text included, and the count of two texts joined by a
    white space is the sum of their counts. *)
Theorem wordCount_words (content : string) :
  wordCount content = word_starts false content ∧
  (wordCount content = 0%nat ↔
   ∀ pre c post, content = (pre +:+ String c post) → is_space c = true) ∧
  (∀ a b c, content = (a +:+ String c b) → is_space c = true →
            wordCount content = (wordCount a + wordCount b)%nat).
Proof.
  assert (Hcount : ∀ s, wordCount s = word_starts false s).
  { intros s. by apply (split_go_count s false EmptyString). }
  split; [done |]. split.
  - rewrite Hcount. apply word_starts_blank.
  - intros a b c -> Hc. rewrite !Hcount. by apply word_starts_app.
Qed.

Example wordCount_sample :
  wordCount "  milk,  eggs and
bread " = 4%nat ∧ wordCount "" = 0%nat ∧ split_spaces " a" = [""; "a"].
Proof. vm_compute. done. Qed.

End ComponentsSpec.

(** * Properties of the handlers of [App] *)

Module AppSpec.
Import JsString NotesDB NotesDBOps Components App.

(** ** Most recent first *)

Lemma with_updatedAt_Some (l : list note) (keyed : list (Z * note)) :
  with_updatedAt l = Some keyed →
  keyed.*2 = l ∧ Forall (λ p, number_field "updatedAt" p.2 = Some p.1) keyed.
Proof.
  revert keyed. induction l as [| n l IH]; simpl; intros keyed.
  - intros [= <-]. split; [done | constructor].
  - destruct (number_field "updatedAt" n) as [t |] eqn:Ht; [| done].
    destruct (with_updatedAt l) as [r |]; [| done].
    intros [= <-]. destruct (IH r eq_refl) as [Hr Hall].
    split; [by rewrite fmap_cons, Hr | by constructor].
Qed.

Lemma with_updatedAt_total (l : list note) :
  Forall (λ n, is_Some (number_field "updatedAt" n)) l → is_Some (with_updatedAt l).
Proof.
  induction 1 as [| n l [t Ht] _ [r IH]]; simpl; [by eexists |].
  rewrite Ht, IH. by eexists.
Qed.

Lemma insert_recent_perm (x : Z * note) (l : list (Z * note)) :
  insert_recent x l ≡ₚ x :: l.
Proof.
  induction l as [| y l IH]; simpl; [done |].
  destruct (x.1 <? y.1); [| done]. rewrite IH. apply Permutation_swap.
Qed.

Lemma sort_recent_perm (l : list (Z * note)) : sort_recent l ≡ₚ l.
Proof.
  induction l as [| x l IH]; simpl; [done |].
  by rewrite insert_recent_perm, IH.
Qed.

Definition later (p q : Z * note) : Prop := q.1 ≤ p.1.

Lemma insert_recent_sorted (x : Z * note) (l : list (Z * note)) :
  StronglySorted later l → StronglySorted later (insert_recent x l).
Proof.
  induction 1 as [| y l Hl IH Hy]; simpl; [repeat constructor |].
  destruct (Z.ltb_spec x.1 y.1) as [Hlt | Hge].
  - constructor; [done |].
    rewrite insert_recent_perm. constructor; [unfold later; lia | done].
  - constructor; [by constructor |].
    constructor; [done |]. eapply Forall_impl; [exact Hy |].
    unfold later. intros z Hz. simpl in *. lia.
Qed.

Lemma sort_recent_sorted (l : list (Z * note)) : StronglySorted later (sort_recent l).
Proof.
  induction l as [| x l IH]; simpl; [constructor | by apply insert_recent_sorted].
Qed.

Lemma sorted_notes (l : list (Z * note)) :
  Forall (λ p, number_field "updatedAt" p.2 = Some p.1) l →
  StronglySorted later l → StronglySorted as_recent (l.*2).
Proof.
  intros Hall Hsorted. induction Hsorted as [| p l Hl IH Hp]; [constructor |].
  apply Forall_cons in Hall as [Hp1 Hall]. rewrite fmap_cons.
  constructor; [by apply IH |].
  apply Forall_fmap, Forall_forall. intros q Hq. simpl.
  rewrite Forall_forall in Hall, Hp.
  exists p.1, q.1. split; [done |]. split; [by apply Hall | by apply Hp].
Qed.

(** Sorting gives the same notes, most recent first. *)
Lemma sortByUpdatedAt_Some (l sorted : list note) :
  sortByUpdatedAt l = Some sorted →
  sorted ≡ₚ l ∧ StronglySorted as_recent sorted.
Proof.
  unfold sortByUpdatedAt.
  destruct (with_updatedAt l) as [keyed |] eqn:Hkeyed; [| done].
  intros [= <-]. apply with_updatedAt_Some in Hkeyed as [Hnotes Hall]. split.
  - by rewrite sort_recent_perm, Hnotes.
  - apply sorted_notes; [| apply sort_recent_sorted].
    by rewrite sort_recent_perm.
Qed.

Lemma sortByUpdatedAt_total (l : list note) :
  Forall (λ n, is_Some (number_field "updatedAt" n)) l → is_Some (sortByUpdatedAt l).
Proof.
  intros Hall. unfold sortByUpdatedAt.
  destruct (with_updatedAt_total l Hall) as [keyed ->]. by eexists.
Qed.

Lemma stamped_getAll (os : objectStore) :
  stamped os → Forall (λ n, is_Some (number_field "updatedAt" n)) (getAll os).
Proof.
  intros Hst. apply Forall_forall. intros n Hn.
  apply NotesDBSpec.elem_of_getAll in Hn as [k Hk].
  destruct (Hst k n Hk) as [u Hu]. unfold number_field. rewrite Hu. by eexists.
Qed.

(** ** Notes of today *)

Definition since (today : Z) (n : note) : Prop := created_since today n = Some true.

#[global] Instance since_dec (today : Z) (n : note) : Decision (since today n).
Proof. unfold since. solve_decision. Defined.

Lemma count_since_Some (today : Z) (l : list note) :
  Forall (λ n : note, ∀ s, n !! "createdAt" ≠ Some (VStr s)) l →
  count_since today l = Some (length (filter (since today) l)).
Proof.
  induction 1 as [| n l Hn _ IH]; simpl; [done |]. rewrite IH.
  unfold since at 2. unfold created_since in *.
  destruct (n !! "createdAt") as [[c | s | b] |] eqn:Hc.
  - destruct (today <=? c) eqn:Hle.
    + rewrite filter_cons_True; [done |]. unfold since, created_since. by rewrite Hc, Hle.
    + rewrite filter_cons_False; [done |]. unfold since, created_since. by rewrite Hc, Hle.
  - by destruct (Hn s).
  - destruct (today <=? (if b then 1 else 0)) eqn:Hle.
    + rewrite filter_cons_True; [done |]. unfold since, created_since. by rewrite Hc, Hle.
    + rewrite filter_cons_False; [done |]. unfold since, created_since. by rewrite Hc, Hle.
  - rewrite filter_cons_False; [done |]. unfold since, created_since. by rewrite Hc.
Qed.

Lemma dated_getAll (os : objectStore) :
  dated os → Forall (λ n : note, ∀ s, n !! "createdAt" ≠ Some (VStr s)) (getAll os).
Proof.
  intros Hd. apply Forall_forall. intros n Hn s.
  apply NotesDBSpec.elem_of_getAll in Hn as [k Hk]. by apply (Hd k).
Qed.

(** What [loadNotes] shows of a store. *)
Lemma loadNotes_run (today : Z) (os : objectStore) (v : view) :
  stamped os → dated os →
  ∃ sorted,
    sorted ≡ₚ getAll os ∧ StronglySorted as_recent sorted ∧
    loadNotes today os v
    = Some {| notes := sorted;
              selectedNote := selectedNote v;
              searchTerm := searchTerm v;
              stats_total := length (getAll os);
              stats_today := length (filter (since today) (getAll os));
              isMobile := isMobile v;
              showSidebar := showSidebar v |}.
Proof.
  intros Hst Hd. unfold loadNotes, getAllNotes.
  destruct (sortByUpdatedAt_total _ (stamped_getAll os Hst)) as [sorted Hsorted].
  rewrite Hsorted. apply sortByUpdatedAt_Some in Hsorted as [Hperm Hrecent].
  exists sorted. split; [done |]. split; [done |].
  assert (Hlen : length sorted = length (getAll os)) by (by rewrite Hperm).
  assert (Hcnt : length (filter (since today) sorted)
                 = length (filter (since today) (getAll os))) by (by rewrite Hperm).
  rewrite count_since_Some; [by rewrite Hlen, Hcnt |].
  apply Forall_forall. intros n Hn. rewrite Hperm in Hn.
  pose proof (dated_getAll os Hd) as Hall. rewrite Forall_forall in Hall. by apply Hall.
Qed.

(** X21: [loadNotes] shows every record of the store once, the most
    recently updated first, whatever the order of the keys; the first
    counter is the number of records and the second the number of those
    created since midnight, which is at most the first; selection, search
    term and side bar are untouched. *)
Theorem loadNotes_recent_first (today : Z) (os : objectStore) (v : view) :
  stamped os →
  dated os →
  ∃ v',
    loadNotes today os v = Some v' ∧
    notes v' ≡ₚ getAll os ∧
    StronglySorted as_recent (notes v') ∧
    stats_total v' = length (getAll os) ∧
    stats_today v' = length (filter (since today) (getAll os)) ∧
    (stats_today v' ≤ stats_total v')%nat ∧
    selectedNote v' = selectedNote v ∧
    searchTerm v' = searchTerm v ∧
    showSidebar v' = showSidebar v.
Proof.
  intros Hst Hd.
  destruct (loadNotes_run today os v Hst Hd) as (sorted & Hperm & Hrecent & ->).
  eexists. split; [reflexivity |]. simpl.
  repeat (split; [done |]). split; [apply length_filter | done].
Qed.

Lemma dated_init : dated (init None).
Proof. intros k n s. simpl. by rewrite lookup_empty. Qed.

Lemma dated_addNote (n : note) (t1 t2 : Z) (os : objectStore) :
  dated os → dated (addNote n t1 t2 os).2.
Proof.
  intros Hd. unfold addNote, add, store_record.
  destruct (extract_key _) as [| | k0]; [| done |].
  - destruct (MAX_GENERATED_KEY <? keyGen os); [done |].
    destruct (_ && _)%bool; [done |]. intros k m s. simpl.
    destruct (decide (k = KNum (keyGen os))) as [-> | Hne].
    + rewrite lookup_insert_eq. intros [= <-].
      rewrite !lookup_insert_ne by done. by rewrite lookup_insert_eq.
    + rewrite lookup_insert_ne by done. apply Hd.
  - destruct (_ && _)%bool; [done |]. intros k m s. simpl.
    destruct (decide (k = k0)) as [-> | Hne].
    + rewrite lookup_insert_eq. intros [= <-].
      rewrite lookup_insert_ne by done. by rewrite lookup_insert_eq.
    + rewrite lookup_insert_ne by done. apply Hd.
Qed.

Lemma one_note_ready :
  stamped NotesDBSpec.one_note ∧ dated NotesDBSpec.one_note.
Proof.
  split; [apply NotesDBOpsSpec.one_note_invariants |].
  apply dated_addNote, dated_init.
Qed.

Definition empty_view : view :=
  {| notes := []; selectedNote := None; searchTerm := "";
     stats_total := 0; stats_today := 0; isMobile := true; showSidebar := true |}.

Lemma loadNotes_recent_first_witness :
  ∃ v', loadNotes 5 NotesDBSpec.one_note empty_view = Some v' ∧
        stats_total v' = 1%nat.
Proof.
  destruct (loadNotes_recent_first 5 NotesDBSpec.one_note empty_view)
    as (v' & Hrun & _ & _ & Htotal & _).
  - apply one_note_ready.
  - apply one_note_ready.
  - exists v'. split; [exact Hrun |]. rewrite Htotal. reflexivity.
Defined.

(** ** Searching from the header *)

Definition blank (s : string) : Prop :=
  ∀ pre c post, s = (pre +:+ String c post) → is_space c = true.

Lemma blank_cons (c : ascii) (s : string) :
  blank (String c s) ↔ is_space c = true ∧ blank s.
Proof.
  unfold blank. split.
  - intros Hall. split; [by apply (Hall "" c s) |].
    intros pre x post ->. by apply (Hall (String c pre) x post).
  - intros [Hc Hall] [| y pre] x post Heq.
    + rewrite JsStringSpec.append_nil in Heq. by injection Heq as <- _.
    + rewrite JsStringSpec.append_cons in Heq. injection Heq as _ ->. eauto.
Qed.

Lemma trimEnd_nonempty (c : ascii) (s : string) :
  is_space c = false → trimEnd (String c s) ≠ "".
Proof. intros Hc. simpl. rewrite Hc. by destruct (trimEnd s). Qed.

Lemma trim_blank (s : string) : trim s = "" ↔ blank s.
Proof.
  unfold trim. induction s as [| c s IH].
  - split; [| done]. intros _ pre x post Heq. by destruct pre.
  - rewrite blank_cons. cbn [trimStart]. destruct (is_space c) eqn:Hc.
    + rewrite IH. tauto.
    + split; [| by intros [? _]]. intros Hempty.
      by destruct (trimEnd_nonempty c s Hc).
Qed.

(** X22: a search term of white space only, the empty term included,
    shows the whole store, most recent first, and sets the counters; the
    term is kept as typed. *)
Theorem handleSearch_blank (term : string) (today : Z) (os : objectStore) (v : view) :
  (∀ pre c post, term = (pre +:+ String c post) → is_space c = true) →
  stamped os →
  dated os →
  ∃ v',
    handleSearch term today os v = Some v' ∧
    notes v' ≡ₚ getAll os ∧
    StronglySorted as_recent (notes v') ∧
    stats_total v' = length (getAll os) ∧
    searchTerm v' = term ∧
    selectedNote v' = selectedNote v.
Proof.
  intros Hblank Hst Hd. unfold handleSearch.
  apply trim_blank in Hblank. rewrite Hblank. simpl String.eqb. cbv iota.
  destruct (loadNotes_run today os (set_searchTerm term v) Hst Hd)
    as (sorted & Hperm & Hrecent & ->).
  eexists. split; [reflexivity |]. simpl. done.
Qed.

Lemma handleSearch_blank_witness :
  ∃ v', handleSearch "  " 5 NotesDBSpec.one_note empty_view = Some v' ∧
        searchTerm v' = "  ".
Proof.
  destruct (handleSearch_blank "  " 5 NotesDBSpec.one_note empty_view)
    as (v' & Hrun & _ & _ & _ & Hterm & _).
  - apply trim_blank. reflexivity.
  - apply one_note_ready.
  - apply one_note_ready.
  - by exists v'.
Defined.

(** X23: a search term that has more than white space, on text of code
    units below 256.  When the search resolves, the list shows the records
    in which the term, as typed, occurs in the title or in the content,
    case ignored, most recent first; when it is rejected the list stays as
    it was.  In both cases the term is kept and the counters and the
    selection are untouched. *)
Theorem handleSearch_results (term : string) (today : Z) (os : objectStore) (v : view) :
  (∃ pre c post, term = (pre +:+ String c post) ∧ is_space c = false) →
  stamped os →
  match searchNotes term os with
  | Resolved l =>
      ∃ v', handleSearch term today os v = Some v' ∧
            notes v' ≡ₚ l ∧
            StronglySorted as_recent (notes v') ∧
            (∀ n, n ∈ notes v' ↔ (∃ k, records os !! k = Some n) ∧ hit term n) ∧
            searchTerm v' = term ∧
            stats_total v' = stats_total v ∧ stats_today v' = stats_today v ∧
            selectedNote v' = selectedNote v
  | _ => handleSearch term today os v = Some (set_searchTerm term v)
  end.
Proof.
  intros (pre & c & post & Hterm & Hc) Hst. unfold handleSearch.
  assert (Htrim : trim term ≠ "").
  { intros Hblank. apply trim_blank in Hblank. specialize (Hblank _ _ _ Hterm).
    congruence. }
  destruct (String.eqb_spec (trim term) "") as [? | _]; [done |].
  unfold searchNotes.
  destruct (filter_notes (toLowerCase term) (getAll os)) as [e | l] eqn:Hrun; [done |].
  apply NotesDBOpsSpec.filter_notes_resolved in Hrun as [Hsub Hiff].
  assert (Hnum : Forall (λ n, is_Some (number_field "updatedAt" n)) l).
  { apply Forall_forall. intros n Hn. apply (λ H, elem_of_sublist _ _ _ H Hsub) in Hn.
    pose proof (stamped_getAll os Hst) as Hall. rewrite Forall_forall in Hall. by apply Hall. }
  destruct (sortByUpdatedAt_total l Hnum) as [sorted Hsorted]. rewrite Hsorted.
  apply sortByUpdatedAt_Some in Hsorted as [Hperm Hrecent].
  eexists. split; [reflexivity |]. simpl.
  split; [done |]. split; [done |]. split; [| done].
  intros n. by rewrite Hperm, Hiff, NotesDBSpec.elem_of_getAll.
Qed.

Lemma handleSearch_results_witness :
  ∃ v', handleSearch "EGGS" 5 NotesDBSpec.one_note empty_view = Some v' ∧
        notes v' ≡ₚ getAll NotesDBSpec.one_note.
Proof.
  pose proof (handleSearch_results "EGGS" 5 NotesDBSpec.one_note empty_view) as Hrun.
  change (searchNotes "EGGS" NotesDBSpec.one_note)
    with (Resolved (A := list note) (getAll NotesDBSpec.one_note)) in Hrun.
  destruct Hrun as (v' & Hrun & Hperm & _).
  - by exists ""%string, "E"%char, "GGS"%string.
  - apply one_note_ready.
  - by exists v'.
Defined.

(** ** Creating, updating and deleting from the page *)

Lemma length_getAll (os : objectStore) : length (getAll os) = size (records os).
Proof.
  unfold getAll. rewrite length_fmap, merge_sort_Permutation.
  apply length_map_to_list.
Qed.

Lemma value_of_key_inj (k k' : key) : value_of_key k = value_of_key k' → k = k'.
Proof. destruct k, k'; simpl; congruence. Qed.

(** The record found by its id is the record kept under that id. *)
Lemma find_by_id (os : objectStore) (id : key) :
  store_wf os →
  List.find (has_id id) (getAll os) = records os !! id.
Proof.
  intros Hwf. destruct (List.find (has_id id) (getAll os)) as [n |] eqn:Hfind.
  - apply List.find_some in Hfind as [Hin Hid].
    apply list_elem_of_In, NotesDBSpec.elem_of_getAll in Hin as [k Hk].
    apply bool_decide_eq_true in Hid. rewrite (Hwf k n Hk) in Hid.
    injection Hid as Hid. apply value_of_key_inj in Hid as ->. done.
  - destruct (records os !! id) as [n |] eqn:Hn; [| done].
    assert (Hin : In n (getAll os)).
    { apply list_elem_of_In, NotesDBSpec.elem_of_getAll. eauto. }
    apply (List.find_none _ _ Hfind) in Hin.
    apply bool_decide_eq_false in Hin. by destruct Hin; apply Hwf.
Qed.

Lemma generated_key_free (os : objectStore) :
  generator_ahead os → keyGen os ≤ MAX_GENERATED_KEY →
  records os !! KNum (keyGen os) = None.
Proof.
  intros Hgen Hmax. destruct (records os !! KNum (keyGen os)) as [m |] eqn:Hm; [| done].
  destruct (Hgen (keyGen os)) as [? | ?]; [by eexists | lia | lia].
Qed.

(** X24: the button "Nouvelle Note".  On a store whose key generator is
    ahead and not exhausted, [createNote] adds one record, titled
    "Nouvelle note", with an empty content and the colour drawn; the list
    is reloaded and holds it, the first counter goes up by one, the new
    record is the selected one, and on a small screen the side bar is
    closed. *)
Theorem createNote_selects (color : string) (t1 t2 today : Z)
    (os : objectStore) (v : view) :
  store_wf os → stamped os → generator_ahead os → dated os →
  keyGen os ≤ MAX_GENERATED_KEY →
  ∃ os' v' created,
    createNote color t1 t2 today os v = Some (os', v') ∧
    records os' !! KNum (keyGen os) = Some created ∧
    (∀ k, k ≠ KNum (keyGen os) → records os' !! k = records os !! k) ∧
    selectedNote v' = Some created ∧
    created ∈ notes v' ∧
    created !! "title" = Some (VStr "Nouvelle note") ∧
    created !! "content" = Some (VStr "") ∧
    created !! "color" = Some (VStr color) ∧
    created !! "createdAt" = Some (VNum t1) ∧
    stats_total v' = S (length (getAll os)) ∧
    showSidebar v' = (if isMobile v then false else showSidebar v).
Proof.
  intros Hwf Hst Hgen Hd Hmax.
  pose proof (generated_key_free os Hgen Hmax) as Hfree.
  set (newNote := (<["title" := VStr "Nouvelle note"]>
                     (<["content" := VStr ""]> (<["color" := VStr color]> ∅)) : note)).
  pose proof (NotesDBOpsSpec.step_invariants (CallAdd newNote t1 t2) os
                (conj Hwf (conj Hst Hgen))) as (Hwf' & Hst' & _).
  pose proof (dated_addNote newNote t1 t2 os Hd) as Hd'.
  unfold createNote. fold newNote. simpl in Hwf', Hst'.
  assert (Hadd : addNote newNote t1 t2 os
                 = (Resolved (KNum (keyGen os)),
                    {| records := <[KNum (keyGen os)
                                    := <["id" := VNum (keyGen os)]>
                                         (<["updatedAt" := VNum t2]>
                                            (<["createdAt" := VNum t1]> newNote))]>
                                    (records os);
                       keyGen := keyGen os + 1 |})).
  { unfold addNote, add, store_record.
    change (extract_key _) with NoKey.
    destruct (Z.ltb_spec MAX_GENERATED_KEY (keyGen os)) as [? | _]; [lia |].
    by rewrite Hfree. }
  rewrite Hadd in *. simpl in Hwf', Hst', Hd'.
  match type of Hwf' with store_wf ?st => set (os' := st) in * end.
  destruct (loadNotes_run today os' v Hst' Hd') as (sorted & Hperm & _ & ->).
  assert (Hstored : records os' !! KNum (keyGen os)
                    = Some (<["id" := VNum (keyGen os)]>
                              (<["updatedAt" := VNum t2]>
                                 (<["createdAt" := VNum t1]> newNote)))).
  { subst os'. simpl. by rewrite lookup_insert_eq. }
  rewrite (find_by_id os' (KNum (keyGen os)) Hwf'), Hstored.
  eexists os', _, _. split; [reflexivity |].
  split; [done |].
  split; [by intros k Hk; subst os'; simpl; rewrite lookup_insert_ne |].
  split; [by destruct (isMobile v) |].
  split.
  { assert (Hin : <["id" := VNum (keyGen os)]>
                    (<["updatedAt" := VNum t2]> (<["createdAt" := VNum t1]> newNote))
                  ∈ sorted).
    { rewrite Hperm. apply NotesDBSpec.elem_of_getAll. eauto. }
    by destruct (isMobile v). }
  split; [done |]. split; [done |]. split; [done |]. split; [done |].
  split; [| by destruct (isMobile v)].
  assert (Hlen : length (getAll os') = S (length (getAll os))).
  { rewrite !length_getAll. subst os'. simpl. by apply map_size_insert_None. }
  destruct (isMobile v); simpl; done.
Qed.

Lemma createNote_selects_witness :
  ∃ os' v', createNote "#3498db" 50 50 5 NotesDBSpec.one_note empty_view
            = Some (os', v') ∧
            stats_total v' = 2%nat ∧ showSidebar v' = false.
Proof.
  destruct (createNote_selects "#3498db" 50 50 5 NotesDBSpec.one_note empty_view)
    as (os' & v' & created & Hrun & _ & _ & _ & _ & _ & _ & _ & _ & Htotal & Hside).
  - apply NotesDBOpsSpec.one_note_invariants.
  - apply NotesDBOpsSpec.one_note_invariants.
  - apply NotesDBOpsSpec.one_note_invariants.
  - apply one_note_ready.
  - vm_compute. discriminate.
  - exists os', v'. split; [exact Hrun |]. split; [| exact Hside].
    rewrite Htotal. reflexivity.
Defined.

Lemma deleted_ready (id : key) (os : objectStore) :
  store_wf os → stamped os → dated os →
  store_wf (NotesDB.deleteNote id os).2 ∧ stamped (NotesDB.deleteNote id os).2 ∧
  dated (NotesDB.deleteNote id os).2.
Proof.
  intros Hwf Hst Hd. split; [by apply NotesDBSpec.store_wf_deleteNote |].
  split; intros k n; simpl.
  - intros Hk. apply lookup_delete_Some in Hk as [_ Hk]. by apply (Hst k).
  - intros s Hk. apply lookup_delete_Some in Hk as [_ Hk]. by apply (Hd k).
Qed.

(** X25: the bin of a card.  When the question is answered with no,
    neither the store nor the page changes.  When it is answered with
    yes, the record is deleted and the list reloaded: it shows the other
    records, none of which has the id, and the selection is dropped
    exactly when the selected note had that id. *)
Theorem deleteNote_confirm (id : key) (today : Z) (os : objectStore) (v : view) :
  store_wf os → stamped os → dated os →
  App.deleteNote false id today os v = Some (os, v) ∧
  ∃ v',
    App.deleteNote true id today os v = Some ((NotesDB.deleteNote id os).2, v') ∧
    (∀ n, n ∈ notes v' ↔ ∃ k, k ≠ id ∧ records os !! k = Some n) ∧
    (∀ n, n ∈ notes v' → has_id id n = false) ∧
    stats_total v' = length (notes v') ∧
    selectedNote v'
    = match selectedNote v with
      | Some sel => if has_id id sel then None else Some sel
      | None => None
      end.
Proof.
  intros Hwf Hst Hd. split; [done |].
  destruct (deleted_ready id os Hwf Hst Hd) as (Hwf' & Hst' & Hd').
  unfold App.deleteNote. cbn [negb].
  change (NotesDB.deleteNote id os)
    with (Resolved tt, (NotesDB.deleteNote id os).2). cbv iota beta.
  destruct (loadNotes_run today (NotesDB.deleteNote id os).2 v Hst' Hd')
    as (sorted & Hperm & _ & ->).
  assert (Hnotes : ∀ n, n ∈ sorted ↔ ∃ k, k ≠ id ∧ records os !! k = Some n).
  { intros n. rewrite Hperm, NotesDBSpec.elem_of_getAll. simpl.
    split; intros [k Hk]; exists k.
    - apply lookup_delete_Some in Hk as [Hne Hk]. by split; [intros -> |].
    - destruct Hk as [Hne Hk]. apply lookup_delete_Some. by split; [intros -> |]. }
  assert (Hnone : ∀ n, n ∈ sorted → has_id id n = false).
  { intros n Hn. apply Hnotes in Hn as (k & Hne & Hk).
    apply bool_decide_eq_false. rewrite (Hwf k n Hk). intros [= Heq].
    by apply value_of_key_inj in Heq. }
  assert (Hlen : length (getAll (NotesDB.deleteNote id os).2) = length sorted)
    by (by rewrite Hperm).
  destruct (selectedNote v) as [sel |] eqn:Hsel.
  - destruct (has_id id sel); eexists; (split; [reflexivity |]); simpl;
      rewrite ?Hsel; done.
  - eexists. split; [reflexivity |]. simpl. by rewrite ?Hsel.
Qed.

Lemma deleteNote_confirm_witness :
  ∃ v', App.deleteNote true (KNum 1) 5 NotesDBSpec.one_note empty_view
        = Some ((NotesDB.deleteNote (KNum 1) NotesDBSpec.one_note).2, v') ∧
        stats_total v' = length (notes v').
Proof.
  destruct (deleteNote_confirm (KNum 1) 5 NotesDBSpec.one_note empty_view)
    as (_ & v' & Hrun & _ & _ & Htotal & _).
  - apply NotesDBOpsSpec.one_note_invariants.
  - apply NotesDBOpsSpec.one_note_invariants.
  - apply one_note_ready.
  - by exists v'.
Defined.

Lemma as_recent_head (l : list note) (h x : note) (t : Z) :
  StronglySorted as_recent (h :: l) → x ∈ l →
  number_field "updatedAt" x = Some t →
  ∃ u, number_field "updatedAt" h = Some u ∧ t ≤ u.
Proof.
  intros Hsorted Hx Ht. apply StronglySorted_inv in Hsorted as [_ Hall].
  rewrite Forall_forall in Hall. destruct (Hall x Hx) as (u & y & Hu & Hy & Hle).
  exists u. split; [done |]. congruence.
Qed.

(** X26: an edit from the page.  For a stored record and changes with no
    [id] and no string for [createdAt], the merged record is written, the
    list is reloaded and holds it, and a selection that had this id now
    shows the merged record, while any other selection stays.  When the
    clock reading is later than the [updatedAt] of every other record, the
    edited note is the first of the list. *)
Theorem updateNote_refreshes (id : key) (updates n : note) (t today : Z)
    (os : objectStore) (v : view) :
  store_wf os → stamped os → dated os →
  records os !! id = Some n →
  updates !! "id" = None →
  (∀ s, updates !! "createdAt" ≠ Some (VStr s)) →
  ∃ os' v' n',
    App.updateNote id updates t today os v = Some (os', v') ∧
    NotesDB.updateNote id updates t os = (Resolved n', os') ∧
    records os' !! id = Some n' ∧
    n' ∈ notes v' ∧
    notes v' ≡ₚ getAll os' ∧
    selectedNote v'
    = match selectedNote v with
      | Some sel => if has_id id sel then Some n' else Some sel
      | None => None
      end ∧
    ((∀ k m u, k ≠ id → records os !! k = Some m →
               number_field "updatedAt" m = Some u → u < t) →
     head (notes v') = Some n').
Proof.
  intros Hwf Hst Hd Hn Hid Hcr.
  pose proof (NotesDBOpsSpec.updateNote_same_id id updates n t os Hwf Hn Hid) as Hrun.
  unfold App.updateNote. rewrite Hrun.
  set (n' := (<["updatedAt" := VNum t]> (updates ∪ n) : note)) in *.
  set (os' := {| records := <[id := n']> (records os);
                 keyGen := update_keyGen id (keyGen os) |}) in *.
  assert (Hwf' : store_wf os').
  { pose proof (NotesDBSpec.store_wf_updateNote id updates t os Hwf) as H.
    by rewrite Hrun in H. }
  assert (Hst' : stamped os').
  { intros k m. subst os'. simpl. destruct (decide (k = id)) as [-> | Hne].
    - rewrite lookup_insert_eq. intros [= <-]. exists t. subst n'.
      by rewrite lookup_insert_eq.
    - rewrite lookup_insert_ne by done. apply Hst. }
  assert (Hd' : dated os').
  { intros k m s. subst os'. simpl. destruct (decide (k = id)) as [-> | Hne].
    - rewrite lookup_insert_eq. intros [= <-]. subst n'.
      rewrite lookup_insert_ne by done. rewrite lookup_union.
      destruct (updates !! "createdAt") as [w |] eqn:Hw.
      + destruct (n !! "createdAt"); simpl; intros [= ->]; by apply (Hcr s).
      + destruct (n !! "createdAt") as [w |] eqn:Hw'; simpl; [| done].
        intros [= ->]. by apply (Hd id n s).
    - rewrite lookup_insert_ne by done. apply Hd. }
  destruct (loadNotes_run today os' v Hst' Hd') as (sorted & Hperm & Hrecent & ->).
  assert (Hstored : records os' !! id = Some n')
    by (subst os'; simpl; by rewrite lookup_insert_eq).
  assert (Hin : n' ∈ sorted).
  { rewrite Hperm. apply NotesDBSpec.elem_of_getAll. eauto. }
  assert (Hhead : (∀ k m u, k ≠ id → records os !! k = Some m →
                            number_field "updatedAt" m = Some u → u < t) →
                  head sorted = Some n').
  { intros Hlater. destruct sorted as [| h rest]; [by inversion Hin |]. simpl.
    apply elem_of_cons in Hin as [-> | Hrest]; [done |].
    assert (Ht : number_field "updatedAt" n' = Some t).
    { unfold number_field. subst n'. by rewrite lookup_insert_eq. }
    destruct (as_recent_head rest h n' t Hrecent Hrest Ht) as (u & Hu & Hle).
    assert (Hh : h ∈ getAll os') by (rewrite <- Hperm; left).
    apply NotesDBSpec.elem_of_getAll in Hh as [k Hk].
    destruct (decide (k = id)) as [-> | Hne]; [congruence |].
    subst os'. simpl in Hk. rewrite lookup_insert_ne in Hk by done.
    specialize (Hlater k h u Hne Hk Hu). lia. }
  rewrite (find_by_id os' id Hwf'), Hstored.
  destruct (selectedNote v) as [sel |] eqn:Hsel.
  - destruct (has_id id sel); eexists os', _, n';
      (split; [reflexivity |]); simpl; rewrite ?Hsel; done.
  - eexists os', _, n'. split; [reflexivity |]. simpl. by rewrite ?Hsel.
Qed.

Lemma updateNote_refreshes_witness :
  ∃ os' v', App.updateNote (KNum 1) {[ "title" := VStr "Groceries" ]} 60 5
              NotesDBSpec.one_note empty_view = Some (os', v').
Proof.
  destruct (updateNote_refreshes (KNum 1) {[ "title" := VStr "Groceries" ]}
              (<["id" := VNum 1]>
                 (<["updatedAt" := VNum 10]>
                    (<["createdAt" := VNum 10]> (to_note NotesDBSpec.grocery))))
              60 5 NotesDBSpec.one_note empty_view)
    as (os' & v' & n' & Hrun & _).
  - apply NotesDBOpsSpec.one_note_invariants.
  - apply NotesDBOpsSpec.one_note_invariants.
  - apply one_note_ready.
  - reflexivity.
  - reflexivity.
  - intros s. by vm_compute.
  - by exists os', v'.
Defined.

End AppSpec.
